(** * Handshaking-lemma visualiser: the graph state manager of [main.py]

    The application keeps one [networkx.Graph] ([self.G]), a node-id counter
    ([self.next_node_id]) and a SQLite table of edge rows.  This development
    embeds the parts of [main.py] that touch that state, together with the
    behaviour of the [networkx.Graph] methods the program calls, and proves
    the properties of the specification over that embedding. *)

From Stdlib Require Import ZArith List Bool Lia Permutation Sorted Arith.
From Stdlib Require Ascii String DecimalString DecimalZ.
Import ListNotations.

Local Open Scope Z_scope.

(** ** The [networkx.Graph] object

    [nx.Graph] stores [_adj], a dict from node to a dict of neighbours, and
    [_node], a dict with the same keys.  Python dicts keep insertion order
    and the program observes it (through [G.nodes], [G.degree()] and
    [G.edges()]), so the adjacency is an association list in insertion
    order: one entry per node, carrying the keys of its inner dict in
    insertion order.  Edge and node attributes are never used by the
    program and are left out. *)

Module Nx.

Definition adjacency := list (Z * list Z).

Record Graph := mkGraph { _adj : adjacency }.

(** [x in d] for the keys of a dict. *)
Definition mem (x : Z) (l : list Z) : bool := existsb (Z.eqb x) l.

(** [nx.Graph()] *)
Definition empty : Graph := mkGraph [].

(** [list(G.nodes)]: the keys of [_node], in insertion order. *)
Definition nodes (G : Graph) : list Z := map fst (_adj G).

(** [n in G._node] *)
Definition has_node (G : Graph) (n : Z) : bool := mem n (nodes G).

(** [G._adj[n]], [None] standing for [KeyError]. *)
Fixpoint adj_get (a : adjacency) (n : Z) : option (list Z) :=
  match a with
  | [] => None
  | (k, nbrs) :: rest => if Z.eqb k n then Some nbrs else adj_get rest n
  end.

(** [G.add_node(n)]:
    [if n not in self._node: self._adj[n] = {}; self._node[n] = {}]. *)
Definition add_node (G : Graph) (n : Z) : Graph :=
  if has_node G n then G else mkGraph (_adj G ++ [(n, [])]).

(** [self._adj[n][m] = datadict]: a new key goes to the end of the inner
    dict, an existing key keeps its place. *)
Definition set_nbr (a : adjacency) (n m : Z) : adjacency :=
  map (fun e : Z * list Z =>
         if Z.eqb (fst e) n
         then (fst e, if mem m (snd e) then snd e else snd e ++ [m])
         else e) a.

(** [del self._adj[n][m]] for a key that is present. *)
Definition del_nbr (a : adjacency) (n m : Z) : adjacency :=
  map (fun e : Z * list Z =>
         if Z.eqb (fst e) n
         then (fst e, filter (fun x => negb (Z.eqb x m)) (snd e))
         else e) a.

(** [G.add_edge(u, v)]: both endpoints are created when missing, [u]
    first, then [_adj[u][v]] and [_adj[v][u]] are set. *)
Definition add_edge (G : Graph) (u v : Z) : Graph :=
  let G1 := add_node G u in
  let G2 := add_node G1 v in
  mkGraph (set_nbr (set_nbr (_adj G2) u v) v u).

(** [G.has_edge(u, v)]:
    [try: return v in self._adj[u]  except KeyError: return False]. *)
Definition present (a : adjacency) (n m : Z) : bool :=
  match adj_get a n with
  | Some nbrs => mem m nbrs
  | None => false
  end.

Definition has_edge (G : Graph) (u v : Z) : bool := present (_adj G) u v.

(** [G.remove_edge(u, v)]:
    [[
      try:
          del self._adj[u][v]
          if u != v: del self._adj[v][u]
      except KeyError: raise NetworkXError(...)
    ]]
    The deletions made before a [KeyError] stay, so the raising outcome
    carries the graph as it is at the raise. *)
Inductive removal :=
| Removed (G : Graph)
| NetworkXError (G : Graph).

Definition remove_edge (G : Graph) (u v : Z) : removal :=
  if present (_adj G) u v then
    let a1 := del_nbr (_adj G) u v in
    if Z.eqb u v then Removed (mkGraph a1)
    else if present a1 v u then Removed (mkGraph (del_nbr a1 v u))
    else NetworkXError (mkGraph a1)
  else NetworkXError G.

(** [G.clear()] *)
Definition clear (G : Graph) : Graph := mkGraph [].

(** [G.degree()]: the DegreeView yields, for every node in node order,
    [(n, len(nbrs) + (n in nbrs))]; a self-loop counts twice. *)
Definition degree_of (e : Z * list Z) : Z :=
  Z.of_nat (length (snd e)) + (if mem (fst e) (snd e) then 1 else 0).

Definition degree_view (G : Graph) : list (Z * Z) :=
  map (fun e => (fst e, degree_of e)) (_adj G).

(** [G.degree(n)] for one node. *)
Definition degree (G : Graph) (n : Z) : Z :=
  match adj_get (_adj G) n with
  | Some nbrs => degree_of (n, nbrs)
  | None => 0
  end.

(** Python's [sum] of a list of ints. *)
Definition sum (l : list Z) : Z := fold_right Z.add 0 l.

(** [G.size()] and [G.number_of_edges()]:
    [s = sum(d for v, d in self.degree()); return s // 2]. *)
Definition number_of_edges (G : Graph) : Z :=
  sum (map snd (degree_view G)) / 2.

(** [G.edges()]: the EdgeView iterates
    [[
      seen = {}
      for n, nbrs in self._adj.items():
          for nbr in nbrs:
              if nbr not in seen: yield (n, nbr)
          seen[n] = 1
    ]] *)
Fixpoint edges_from (seen : list Z) (a : adjacency) : list (Z * Z) :=
  match a with
  | [] => []
  | (n, nbrs) :: rest =>
      map (pair n) (filter (fun nbr => negb (mem nbr seen)) nbrs)
        ++ edges_from (n :: seen) rest
  end.

Definition edges (G : Graph) : list (Z * Z) := edges_from [] (_adj G).

End Nx.

(** ** The edge store

    The SQLite table [edges (id AUTOINCREMENT, source INTEGER, target
    INTEGER)] is the list of its [(source, target)] rows in rowid order.
    The [sqlite3] module binds a Python int only when it fits a signed
    64-bit integer and raises [OverflowError] otherwise, before the
    statement runs; [None] stands for that exception. *)

Module EdgeStore.

Definition row := (Z * Z)%type.
Definition table := list row.

Definition bindable (z : Z) : bool :=
  (- 2 ^ 63 <=? z) && (z <? 2 ^ 63).

(** [save_edge(u, v)]: [INSERT INTO edges (source, target) VALUES (?, ?)]. *)
Definition save_edge (db : table) (u v : Z) : option table :=
  if bindable u && bindable v then Some (db ++ [(u, v)]) else None.

(** The [WHERE] clause of [delete_edge], with parameters [(u, v, v, u)]. *)
Definition matches (u v : Z) (r : row) : bool :=
  ((fst r =? u) && (snd r =? v)) || ((fst r =? v) && (snd r =? u)).

(** [delete_edge(u, v)]: [DELETE FROM edges WHERE (source=? AND target=?)
    OR (source=? AND target=?)]. *)
Definition delete_edge (db : table) (u v : Z) : option table :=
  if bindable u && bindable v
  then Some (filter (fun r => negb (matches u v r)) db)
  else None.

(** [load_edges()]: [SELECT source, target FROM edges]. *)
Definition load_edges (db : table) : list row := db.

(** [DELETE FROM edges], as [reset_graph] runs it. *)
Definition delete_all (db : table) : table := [].

(** [init_db()]: [CREATE TABLE IF NOT EXISTS]; a table that does not exist
    yet is created empty, an existing one is kept. *)
Definition init_db (db : option table) : table :=
  match db with
  | Some t => t
  | None => []
  end.

End EdgeStore.

(** ** The application: [class GraphApp]

    The state is what the methods read and write: the graph [self.G], the
    counter [self.next_node_id], the edge table, and the [on_complete]
    callbacks of the edge animations that are still running.  What a method
    tells the user (message boxes, log lines) is returned with the new
    state as a list of notices. *)

Module GraphApp.

Import Nx EdgeStore.

Inductive Notice :=
| ErrNeedTwoNodes                 (* showerror "Need at least 2 nodes." *)
| ErrSelectTwoNodes               (* showerror "Please select two nodes." *)
| ErrSelfLoop                     (* showerror "Cannot connect a node to itself." *)
| InfoEdgeExists (u v : Z)        (* showinfo "Edge u-v already exists." *)
| ErrNoEdges                      (* showerror "No edges to remove." *)
| ErrSelectEdge                   (* showerror "Select an edge to remove." *)
| ErrParseEdge                    (* showerror "Failed to parse selected edge." *)
| LogAddedNode (n : Z)            (* log "Added Node n" *)
| LogAddedEdge (u v : Z)          (* log "Added Edge u-v (saved in DB)" *)
| LogRemovedEdge (u v : Z)        (* log "Removed Edge u-v (removed from DB)" *)
| LogVerified                     (* log "Handshaking Lemma Verified!" *)
| LogFailed                       (* log "Handshaking Lemma Failed!" *)
| LogEulerCircuit                 (* log "Euler Circuit exists (all degrees even)." *)
| LogEulerPath                    (* log "Euler Path exists (two odd-degree vertices)." *)
| LogNoEuler (odd : nat)          (* log "No Euler Path/Circuit (odd-degree count: odd)" *)
| LogLoaded (n : Z)               (* log "Loaded n edges from DB" *)
| LogReset                        (* log "Graph and DB reset. Start from scratch." *)
| Uncaught                        (* an exception left the callback *).

Record State := mkState {
  G : Graph;
  next_node_id : Z;
  db : table;
  animating : list (Z * Z)
}.

Definition with_G (st : State) (g : Graph) : State :=
  mkState g (next_node_id st) (db st) (animating st).

(** [add_node]: lines 172-178. *)
Definition add_node (st : State) : State * list Notice :=
  let node_id := next_node_id st in
  let g := Nx.add_node (G st) node_id in
  (mkState g (Z.max (next_node_id st) (node_id + 1)) (db st) (animating st),
   [LogAddedNode node_id]).

(** The id [add_node] hands out. *)
Definition allocated_id (st : State) : Z := next_node_id st.

(** [animate_edge(u, v, on_complete=...)] draws its first frame at once and
    schedules the other [total - 1 = 19] with [root.after]; [on_complete]
    runs in the last one.  Until then the callback is pending. *)
Definition animate_edge (st : State) (u v : Z) : State :=
  mkState (G st) (next_node_id st) (db st) (animating st ++ [(u, v)]).

(** [add_edge_from_select]: lines 193-207.  [src] and [tgt] are the results
    of [int(self.src_var.get())] and [int(self.tgt_var.get())], [None] when
    the conversion raises. *)
Definition add_edge_from_select (st : State) (src tgt : option Z)
  : State * list Notice :=
  match src, tgt with
  | Some u, Some v =>
      if u =? v then (st, [ErrSelfLoop])
      else if has_edge (G st) u v then (st, [InfoEdgeExists u v])
      else (animate_edge st u v, [])
  | _, _ => (st, [ErrSelectTwoNodes])
  end.

(** [_finalize_add_edge]: lines 209-216.  When [save_edge] raises, the
    edge is already in [self.G] and the rest of the callback is skipped. *)
Definition _finalize_add_edge (st : State) (u v : Z) : State * list Notice :=
  if negb (has_edge (G st) u v) then
    let g := Nx.add_edge (G st) u v in
    match save_edge (db st) u v with
    | Some t => (mkState g (next_node_id st) t (animating st), [LogAddedEdge u v])
    | None => (with_G st g, [Uncaught])
    end
  else (st, []).

(** The last frame of the [i]-th running animation: its [on_complete]. *)
Fixpoint drop_nth {A} (i : nat) (l : list A) {struct l} : list A :=
  match l, i with
  | [], _ => []
  | _ :: l', O => l'
  | x :: l', S i' => x :: drop_nth i' l'
  end.

Definition animation_done (st : State) (i : nat) : State * list Notice :=
  match nth_error (animating st) i with
  | Some (u, v) =>
      _finalize_add_edge
        (mkState (G st) (next_node_id st) (db st) (drop_nth i (animating st)))
        u v
  | None => (st, [])
  end.

(** [add_edge]: lines 180-191, the random variant no button is bound to.
    [random.sample(nodes, 2)] draws the nodes at two different positions
    [i] and [j] of [list(self.G.nodes)]; a pair [i], [j] that is no such
    draw does nothing. *)
Definition add_edge (st : State) (i j : nat) : State * list Notice :=
  let nodes := Nx.nodes (G st) in
  if (length nodes <? 2)%nat then (st, [ErrNeedTwoNodes])
  else
    match nth_error nodes i, nth_error nodes j with
    | Some u, Some v =>
        if (i =? j)%nat then (st, [])
        else if has_edge (G st) u v then (st, [InfoEdgeExists u v])
        else (animate_edge st u v, [])
    | _, _ => (st, [])
    end.

(** Lines 353-358 of [remove_selected_edge], once [u] and [v] are parsed:
    [[
      if self.G.has_edge(u, v): self.G.remove_edge(u, v)
      delete_edge(u, v)
      self.log(f"Removed Edge {u}-{v} (removed from DB)")
    ]] *)
Definition remove_pair (st : State) (u v : Z) : State * list Notice :=
  let r := if has_edge (G st) u v then Nx.remove_edge (G st) u v
           else Removed (G st) in
  match r with
  | NetworkXError g => (with_G st g, [Uncaught])
  | Removed g =>
      match delete_edge (db st) u v with
      | Some t => (mkState g (next_node_id st) t (animating st),
                   [LogRemovedEdge u v])
      | None => (with_G st g, [Uncaught])
      end
  end.

(** What [self.edge_list.curselection()] and the parse of the selected
    line give [remove_selected_edge].  Which of these the program can get
    is fixed by the lines of the listbox: see [selection_of] below, which
    computes the selection from the listbox and the selected index. *)
Inductive Selection :=
| NoSelection
| Unparsable
| Picked (u v : Z).

(** [remove_selected_edge]: lines 340-358. *)
Definition remove_selected_edge (st : State) (sel : Selection)
  : State * list Notice :=
  match sel with
  | NoSelection => (st, [ErrSelectEdge])
  | Unparsable => (st, [ErrParseEdge])
  | Picked u v => remove_pair st u v
  end.

(** [remove_edge]: lines 328-338, the random variant no button is bound
    to.  [not self.G.edges] tests the length of the edge view, which
    [networkx] computes as [number_of_edges] does; [i] is the position
    [random.choice] draws in [list(self.G.edges)], and a position that is
    no such draw does nothing. *)
Definition remove_edge (st : State) (i : nat) : State * list Notice :=
  if number_of_edges (G st) =? 0 then (st, [ErrNoEdges])
  else
    match nth_error (Nx.edges (G st)) i with
    | None => (st, [])
    | Some (u, v) =>
        match Nx.remove_edge (G st) u v with
        | NetworkXError g => (with_G st g, [Uncaught])
        | Removed g =>
            match delete_edge (db st) u v with
            | Some t => (mkState g (next_node_id st) t (animating st),
                         [LogRemovedEdge u v])
            | None => (with_G st g, [Uncaught])
            end
        end
    end.

(** [verify_lemma]: lines 360-377.  The four values it shows in the
    verification panel, and the log line. *)
Record Verification := mkVerification {
  degrees : list Z;
  degree_sum : Z;
  edge_twice : Z;
  holds : bool
}.

Definition verify_lemma (st : State) : Verification * list Notice :=
  let degrees := map snd (degree_view (G st)) in
  let degree_sum := Nx.sum degrees in
  let edge_twice := 2 * number_of_edges (G st) in
  if degree_sum =? edge_twice
  then (mkVerification degrees degree_sum edge_twice true, [LogVerified])
  else (mkVerification degrees degree_sum edge_twice false, [LogFailed]).

(** [euler_path_check]: lines 379-387. *)
Inductive Euler :=
| Circuit
| Path
| NoEuler (odd_count : nat).

Definition odd_degree_nodes (g : Graph) : list Z :=
  map fst (filter (fun nd => negb (snd nd mod 2 =? 0)) (degree_view g)).

Definition euler_path_check (st : State) : Euler * list Notice :=
  let odd := odd_degree_nodes (G st) in
  if (length odd =? 0)%nat then (Circuit, [LogEulerCircuit])
  else if (length odd =? 2)%nat then (Path, [LogEulerPath])
  else (NoEuler (length odd), [LogNoEuler (length odd)]).

(** [max] of a non-empty collection of ints. *)
Definition max_of (x : Z) (l : list Z) : Z := fold_right Z.max x l.

(** [load_from_db]: lines 393-412.  The rows are ints, so [int(u)] and
    [int(v)] return them; [nodes] collects every endpoint. *)
Definition load_rows (g : Graph) (rows : list row) : Graph :=
  fold_left (fun g r => Nx.add_edge g (fst r) (snd r)) rows g.

Definition endpoints (rows : list row) : list Z :=
  flat_map (fun r => [fst r; snd r]) rows.

Definition load_from_db (st : State) : State * list Notice :=
  let edges := load_edges (db st) in
  let g := load_rows (G st) edges in
  let next :=
    match endpoints edges with
    | [] => 1
    | n :: ns => max_of n ns + 1
    end in
  (mkState g next (db st) (animating st), [LogLoaded (number_of_edges g)]).

(** [reset_graph]: lines 502-527. *)
Definition reset_graph (st : State) : State * list Notice :=
  (mkState (Nx.clear (G st)) 1 (delete_all (db st)) (animating st), [LogReset]).

(** Start of the program: [init_db()], then [GraphApp.__init__] with a
    fresh graph, the counter at 1 and [load_from_db()].  [file] is the
    table found on disk, [None] when there is no database yet. *)
Definition fresh (t : table) : State := mkState Nx.empty 1 t [].

Definition startup (file : option table) : State * list Notice :=
  load_from_db (fresh (init_db file)).

(** Python's [sorted] on a list of pairs of ints: tuples compare
    lexicographically. *)
Definition pair_ltb (a b : Z * Z) : bool :=
  (fst a <? fst b) || ((fst a =? fst b) && (snd a <? snd b)).

Fixpoint insert_sorted (x : Z * Z) (l : list (Z * Z)) : list (Z * Z) :=
  match l with
  | [] => [x]
  | y :: l' => if pair_ltb y x then y :: insert_sorted x l' else x :: y :: l'
  end.

Definition sorted (l : list (Z * Z)) : list (Z * Z) :=
  fold_right insert_sorted [] l.

(** The lines [refresh_graph] puts in the edge listbox (lines 492-495):
    [for u, v in sorted(self.G.edges())]. *)
Definition edge_list (g : Graph) : list (Z * Z) := sorted (Nx.edges g).

(** [sorted(list(self.G.nodes()))], the node display. *)
Fixpoint insert_node (x : Z) (l : list Z) : list Z :=
  match l with
  | [] => [x]
  | y :: l' => if y <? x then y :: insert_node x l' else x :: y :: l'
  end.

Definition node_list (g : Graph) : list Z :=
  fold_right insert_node [] (Nx.nodes g).

(** ** Sessions

    A command is one callback of the event loop, or the end of the process
    followed by a new start on the same database file. *)
Inductive Command :=
| AddNode
| AddEdgeFromSelect (src tgt : option Z)
| AnimationDone (i : nat)
| AddEdgeRandom (i j : nat)
| RemoveSelectedEdge (sel : Selection)
| RemoveEdgeRandom (i : nat)
| VerifyLemma
| EulerPathCheck
| ResetGraph
| Restart.

Definition exec (st : State) (c : Command) : State * list Notice :=
  match c with
  | AddNode => add_node st
  | AddEdgeFromSelect src tgt => add_edge_from_select st src tgt
  | AnimationDone i => animation_done st i
  | AddEdgeRandom i j => add_edge st i j
  | RemoveSelectedEdge sel => remove_selected_edge st sel
  | RemoveEdgeRandom i => remove_edge st i
  | VerifyLemma => (st, snd (verify_lemma st))
  | EulerPathCheck => (st, snd (euler_path_check st))
  | ResetGraph => reset_graph st
  | Restart => startup (Some (db st))
  end.

Definition run_from (st : State) (cs : list Command) : State :=
  fold_left (fun s c => fst (exec s c)) cs st.

(** The first start, with no database file yet. *)
Definition initial : State := fst (startup None).

Definition run (cs : list Command) : State := run_from initial cs.

(** The colour scale of [refresh_graph] (lines 420-432): the degrees are
    read in the order of the node display, [maxdeg] is their maximum, or 1
    when there is no node or no edge, and node [n] is coloured
    [cmap(d / maxdeg)]. *)
Definition deg_vals (g : Graph) : list Z := map (degree g) (node_list g).

Definition maxdeg (g : Graph) : Z :=
  match deg_vals g with
  | [] => 1
  | d :: ds => if max_of d ds >? 0 then max_of d ds else 1
  end.

(** The frame chain of [animate_edge] (lines 255-310):
    [total = max(1, int(steps))], [interval = max(1, int(duration // total))],
    and [draw_step] adds one to the counter, then either schedules itself
    again with [root.after(interval, draw_step)] or calls [on_complete]. *)
Definition frame_total (steps : Z) : Z := Z.max 1 steps.

Definition frame_interval (duration steps : Z) : Z :=
  Z.max 1 (duration / frame_total steps).

Inductive frame_result :=
| NextFrame (i : Z)
| OnComplete.

Definition draw_step (total i : Z) : frame_result :=
  if i + 1 <? total then NextFrame (i + 1) else OnComplete.

(** The chain from counter [i]: the number of frames drawn and the time
    spent in [root.after] until [on_complete] runs, [None] while it has
    not run within [fuel] frames. *)
Fixpoint play (fuel : nat) (total interval i : Z) : option (nat * Z) :=
  match fuel with
  | O => None
  | S fuel' =>
      match draw_step total i with
      | OnComplete => Some (1%nat, 0)
      | NextFrame i' =>
          match play fuel' total interval i' with
          | Some (n, t) => Some (S n, t + interval)
          | None => None
          end
      end
  end.

(** ** The edge listbox

    [refresh_graph] empties [self.edge_list] and inserts one line
    [f"{u} - {v}"] per tuple of [sorted(self.G.edges())] (lines 492-495);
    [remove_selected_edge] reads the selected line back with
    [item.split("-")], [strip()] and [int()] (lines 345-352).  The lines
    are strings, built and taken apart as Python does. *)

Definition dash : Ascii.ascii := Ascii.ascii_of_nat 45.
Definition blank : Ascii.ascii := Ascii.ascii_of_nat 32.
Definition plus_sign : Ascii.ascii := Ascii.ascii_of_nat 43.

(** [str(z)] for an int. *)
Definition str (z : Z) : String.string :=
  DecimalString.NilZero.string_of_int (Z.to_int z).

(** [f"{u} - {v}"] *)
Definition render (u v : Z) : String.string :=
  String.append (str u)
    (String.String blank (String.String dash (String.String blank (str v)))).

(** [s.split(sep)] for a separator of one character: at least one part. *)
Fixpoint split_on (sep : Ascii.ascii) (s : String.string) : list String.string :=
  match s with
  | String.EmptyString => [String.EmptyString]
  | String.String a s' =>
      if Ascii.eqb a sep then String.EmptyString :: split_on sep s'
      else
        match split_on sep s' with
        | p :: ps => String.String a p :: ps
        | [] => [String.String a String.EmptyString]
        end
  end.

(** [c.isspace()] for the characters of one byte: tab to carriage return,
    the four separators 28-31, and the blank. *)
Definition is_space (a : Ascii.ascii) : bool :=
  let n := Ascii.nat_of_ascii a in
  ((9 <=? n) && (n <=? 13) || (28 <=? n) && (n <=? 32))%nat.

Fixpoint lstrip (s : String.string) : String.string :=
  match s with
  | String.EmptyString => String.EmptyString
  | String.String a s' => if is_space a then lstrip s' else s
  end.

Fixpoint rstrip (s : String.string) : String.string :=
  match s with
  | String.EmptyString => String.EmptyString
  | String.String a s' =>
      match rstrip s' with
      | String.EmptyString =>
          if is_space a then String.EmptyString
          else String.String a String.EmptyString
      | r => String.String a r
      end
  end.

(** [s.strip()] *)
Definition strip (s : String.string) : String.string := rstrip (lstrip s).

(** [int(s)] on a stripped string: an optional sign and decimal digits;
    [None] is [ValueError].  (Python also takes underscores between
    digits; a listbox line holds none.) *)
Definition py_int (s : String.string) : option Z :=
  match s with
  | String.EmptyString => None
  | String.String a s' =>
      if Ascii.eqb a plus_sign
      then option_map Z.of_uint (DecimalString.NilZero.uint_of_string s')
      else option_map Z.of_int (DecimalString.NilZero.int_of_string s)
  end.

(** Lines 346-352: [parts = item.split("-")], then [int(parts[0].strip())]
    and [int(parts[1].strip())]; [None] when either raises. *)
Definition parse_item (item : String.string) : option (Z * Z) :=
  match split_on dash item with
  | p0 :: p1 :: _ =>
      match py_int (strip p0), py_int (strip p1) with
      | Some u, Some v => Some (u, v)
      | _, _ => None
      end
  | _ => None
  end.

(** The lines [refresh_graph] writes. *)
Definition lines (g : Graph) : list String.string :=
  map (fun e => render (fst e) (snd e)) (edge_list g).

(** Lines 341-352: [sel = self.edge_list.curselection()] is empty or holds
    the index of a line of the listbox; the line is parsed. *)
Definition selection_of (box : list String.string) (cur : option nat)
  : Selection :=
  match cur with
  | None => NoSelection
  | Some i =>
      match nth_error box i with
      | None => NoSelection
      | Some item =>
          match parse_item item with
          | Some (u, v) => Picked u v
          | None => Unparsable
          end
      end
  end.

(** The window: the application state and the lines of the listbox. *)
Record Window := mkWindow {
  state : State;
  listbox : list String.string
}.

(** What the user can do: as [Command], but an edge is removed by
    selecting a line of the listbox (or none) and pressing the button. *)
Inductive Event :=
| PressAddNode
| PressAddEdge (src tgt : option Z)
| AnimationEnds (i : nat)
| CallAddEdge (i j : nat)
| PressRemoveSelected (cur : option nat)
| CallRemoveEdge (i : nat)
| PressVerify
| PressEuler
| PressReset
| CloseAndStart.

Definition command_of (box : list String.string) (e : Event) : Command :=
  match e with
  | PressAddNode => AddNode
  | PressAddEdge src tgt => AddEdgeFromSelect src tgt
  | AnimationEnds i => AnimationDone i
  | CallAddEdge i j => AddEdgeRandom i j
  | PressRemoveSelected cur => RemoveSelectedEdge (selection_of box cur)
  | CallRemoveEdge i => RemoveEdgeRandom i
  | PressVerify => VerifyLemma
  | PressEuler => EulerPathCheck
  | PressReset => ResetGraph
  | CloseAndStart => Restart
  end.

Definition is_uncaught (n : Notice) : bool :=
  match n with
  | Uncaught => true
  | _ => false
  end.

(** Whether the callback reaches its [self.refresh_graph()]: [add_node]
    (line 178), [verify_lemma] (377), [euler_path_check] (387),
    [reset_graph] (527) and [__init__] (68) always do;
    [_finalize_add_edge] (216) does unless [save_edge] raised;
    [remove_selected_edge] (358) and [remove_edge] (338) do after their
    log line, so not after an early return or an exception;
    [add_edge_from_select] and [add_edge] never call it. *)
Definition refreshes (st : State) (c : Command) (ns : list Notice) : bool :=
  match c with
  | AddNode | VerifyLemma | EulerPathCheck | ResetGraph | Restart => true
  | AddEdgeFromSelect _ _ | AddEdgeRandom _ _ => false
  | AnimationDone i =>
      match nth_error (animating st) i with
      | Some _ => negb (existsb is_uncaught ns)
      | None => false
      end
  | RemoveSelectedEdge _ | RemoveEdgeRandom _ =>
      match ns with
      | [LogRemovedEdge _ _] => true
      | _ => false
      end
  end.

Definition handle (w : Window) (e : Event) : Window * list Notice :=
  let c := command_of (listbox w) e in
  let r := exec (state w) c in
  (mkWindow (fst r)
     (if refreshes (state w) c (snd r) then lines (G (fst r)) else listbox w),
   snd r).

Definition play_from (w : Window) (es : list Event) : Window :=
  fold_left (fun x e => fst (handle x e)) es w.

(** The window after the first start. *)
Definition first_window : Window := mkWindow initial (lines (G initial)).

Definition session (es : list Event) : Window := play_from first_window es.

End GraphApp.

(** ** Predicates used by the statements *)

Module Props.

Import Nx EdgeStore GraphApp.

(** A graph as [networkx] keeps it: the keys of a dict are distinct, and
    [_adj] is symmetric. *)
Definition wf (a : adjacency) : Prop :=
  NoDup (map fst a)
  /\ (forall n l, In (n, l) a -> NoDup l)
  /\ (forall n m, present a n m = present a m n).

(** No node is its own neighbour. *)
Definition loop_free (a : adjacency) : Prop :=
  forall n, present a n n = false.

(** The number of [true] answers of [f] along a list. *)
Definition count (f : Z -> bool) (l : list Z) : nat := length (filter f l).

(** For each element, the answers of [f x] on the list from [x] on. *)
Fixpoint upper (f : Z -> Z -> bool) (l : list Z) : nat :=
  match l with
  | [] => O
  | x :: l' => (count (f x) (x :: l') + upper f l')%nat
  end.

(** The answers of [f x] on the whole list, for each [x] of [xs]. *)
Definition full (f : Z -> Z -> bool) (xs l : list Z) : nat :=
  fold_right (fun x acc => (count (f x) l + acc)%nat) O xs.

(** The invariant of a session. *)
Record Inv (st : State) : Prop := mkInv {
  inv_wf : wf (_adj (G st));
  inv_loop_free : loop_free (_adj (G st));
  inv_db_graph : forall u v, In (u, v) (db st) -> has_edge (G st) u v = true;
  inv_db_bindable :
    forall u v, In (u, v) (db st) -> bindable u = true /\ bindable v = true;
  inv_animating : forall u v, In (u, v) (animating st) -> u <> v
}.

(** Lexicographic order on pairs, as a relation. *)
Definition pair_le (a b : Z * Z) : Prop :=
  fst a < fst b \/ (fst a = fst b /\ snd a <= snd b).

(** The unordered pair behind an edge tuple: smaller endpoint first. *)
Definition normalize (e : Z * Z) : Z * Z :=
  if fst e <=? snd e then e else (snd e, fst e).

(** Position of the first occurrence of [x] in [l], [length l] if none. *)
Fixpoint index (x : Z) (l : list Z) : nat :=
  match l with
  | [] => O
  | y :: l' => if y =? x then O else S (index x l')
  end.

(** A notice that reports a failure to the user: the message boxes. *)
Definition is_rejection (n : Notice) : bool :=
  match n with
  | ErrNeedTwoNodes | ErrSelectTwoNodes | ErrSelfLoop | InfoEdgeExists _ _
  | ErrNoEdges | ErrSelectEdge | ErrParseEdge => true
  | _ => false
  end.

(** [save_edge] for each pair of a list, in order, as repeated commits
    do; an [OverflowError] stops the sequence. *)
Definition persist (t : table) (es : list (Z * Z)) : option table :=
  fold_left (fun acc e =>
               match acc with
               | Some t' => save_edge t' (fst e) (snd e)
               | None => None
               end) es (Some t).

(** The user types [u] and [v], presses "Add Edge", and the animation
    runs to its end. *)
Definition connect (u v : Z) : list Command :=
  [AddEdgeFromSelect (Some u) (Some v); AnimationDone 0].

(** Sample sessions. *)
Definition triangle : State := run (connect 1 2 ++ connect 2 3 ++ connect 3 1).
Definition path_graph : State := run (connect 1 2 ++ connect 2 3).
Definition star : State := run (connect 1 2 ++ connect 1 3 ++ connect 1 4).
Definition two_triangles : State :=
  run (connect 1 2 ++ connect 2 3 ++ connect 3 1
       ++ connect 4 5 ++ connect 5 6 ++ connect 6 4).

(** The table against the graph: every edge whose endpoints can be bound
    has a row, and no unordered pair has two rows. *)
Record Sync (st : State) : Prop := mkSync {
  sync_cover : forall u v,
    has_edge (G st) u v = true -> bindable u = true -> bindable v = true ->
    In (u, v) (db st) \/ In (v, u) (db st);
  sync_once : NoDup (map normalize (db st))
}.

(** The commands that empty the graph: reset, and the end of the process. *)
Definition clears (c : Command) : bool :=
  match c with
  | ResetGraph | Restart => true
  | _ => false
  end.

End Props.

(** ** Facts about the graph object *)

Module NxFacts.

Import Nx Props.

Lemma mem_In x l : mem x l = true <-> In x l.
Proof.
  unfold mem. rewrite existsb_exists. split.
  - intros [y [Hy He]]. apply Z.eqb_eq in He. now subst.
  - intros H. exists x. split; [assumption | apply Z.eqb_refl].
Qed.

Lemma mem_false x l : mem x l = false <-> ~ In x l.
Proof.
  rewrite <- mem_In. destruct (mem x l); split; intros; congruence.
Qed.

Lemma mem_app x l1 l2 : mem x (l1 ++ l2) = mem x l1 || mem x l2.
Proof. unfold mem. apply existsb_app. Qed.

Lemma adj_get_app a b k :
  adj_get (a ++ b) k =
  match adj_get a k with Some l => Some l | None => adj_get b k end.
Proof.
  induction a as [|[n l] a IH]; simpl; [reflexivity|].
  destruct (n =? k); [reflexivity | apply IH].
Qed.

Lemma adj_get_None a k : adj_get a k = None <-> ~ In k (map fst a).
Proof.
  induction a as [|[n l] a IH]; simpl.
  - tauto.
  - destruct (Z.eqb_spec n k).
    + split; [discriminate | intros H; exfalso; apply H; now left].
    + rewrite IH. tauto.
Qed.

Lemma adj_get_Some_In a k l : adj_get a k = Some l -> In (k, l) a.
Proof.
  induction a as [|[n l0] a IH]; simpl; [discriminate|].
  destruct (Z.eqb_spec n k).
  - intros [= ->]. subst. now left.
  - intros H. right. now apply IH.
Qed.

Lemma In_adj_get a k l :
  NoDup (map fst a) -> In (k, l) a -> adj_get a k = Some l.
Proof.
  induction a as [|[n l0] a IH]; simpl; [tauto|].
  intros Hnd [H|H].
  - injection H as -> ->. now rewrite Z.eqb_refl.
  - inversion Hnd as [|? ? Hn Hnd']; subst.
    destruct (Z.eqb_spec n k).
    + subst. exfalso. apply Hn. apply in_map_iff. now exists (k, l).
    + now apply IH.
Qed.

Lemma has_key_adj_get a k :
  In k (map fst a) -> exists l, adj_get a k = Some l.
Proof.
  intros H. destruct (adj_get a k) eqn:E; [eauto|].
  apply adj_get_None in E. contradiction.
Qed.

Lemma keys_set_nbr a n m : map fst (set_nbr a n m) = map fst a.
Proof.
  unfold set_nbr. rewrite map_map. apply map_ext.
  intros [k l]; simpl. now destruct (k =? n).
Qed.

Lemma keys_del_nbr a n m : map fst (del_nbr a n m) = map fst a.
Proof.
  unfold del_nbr. rewrite map_map. apply map_ext.
  intros [k l]; simpl. now destruct (k =? n).
Qed.

Lemma adj_get_set_nbr a n m k :
  adj_get (set_nbr a n m) k =
  option_map (fun l => if k =? n then (if mem m l then l else l ++ [m]) else l)
             (adj_get a k).
Proof.
  induction a as [|[k0 l0] a IH]; simpl; [reflexivity|].
  destruct (Z.eqb_spec k0 n); simpl.
  - destruct (Z.eqb_spec k0 k); simpl.
    + subst. now rewrite Z.eqb_refl.
    + apply IH.
  - destruct (Z.eqb_spec k0 k); simpl.
    + subst. destruct (Z.eqb_spec k n); [contradiction | reflexivity].
    + apply IH.
Qed.

Lemma adj_get_del_nbr a n m k :
  adj_get (del_nbr a n m) k =
  option_map (fun l => if k =? n then filter (fun x => negb (x =? m)) l else l)
             (adj_get a k).
Proof.
  induction a as [|[k0 l0] a IH]; simpl; [reflexivity|].
  destruct (Z.eqb_spec k0 n); simpl.
  - destruct (Z.eqb_spec k0 k); simpl.
    + subst. now rewrite Z.eqb_refl.
    + apply IH.
  - destruct (Z.eqb_spec k0 k); simpl.
    + subst. destruct (Z.eqb_spec k n); [contradiction | reflexivity].
    + apply IH.
Qed.

Lemma mem_filter_neq x m l :
  mem x (filter (fun y => negb (y =? m)) l) = mem x l && negb (x =? m).
Proof.
  induction l as [|y l IH]; simpl; [reflexivity|].
  destruct (Z.eqb_spec y m); simpl.
  - rewrite IH. destruct (Z.eqb_spec x y); simpl.
    + subst. rewrite Z.eqb_refl. simpl. now rewrite andb_false_r.
    + reflexivity.
  - rewrite IH. destruct (Z.eqb_spec x y); simpl.
    + subst. destruct (Z.eqb_spec y m); [contradiction | reflexivity].
    + reflexivity.
Qed.

Lemma present_key a n m : present a n m = true -> In n (map fst a).
Proof.
  unfold present. destruct (adj_get a n) eqn:E; [|discriminate].
  intros _. apply adj_get_Some_In in E.
  apply in_map_iff. now exists (n, l).
Qed.

Lemma present_add_entry a n k m :
  present (a ++ [(n, [])]) k m = present a k m.
Proof.
  unfold present. rewrite adj_get_app.
  destruct (adj_get a k); [reflexivity|].
  simpl. now destruct (n =? k).
Qed.

Lemma present_set_nbr a n m k x :
  present (set_nbr a n m) k x =
  present a k x || ((k =? n) && (x =? m) && mem n (map fst a)).
Proof.
  unfold present. rewrite adj_get_set_nbr.
  destruct (adj_get a k) as [l|] eqn:E; simpl.
  - destruct (Z.eqb_spec k n); simpl.
    + subst. assert (Hk : mem n (map fst a) = true).
      { apply mem_In. apply adj_get_Some_In in E.
        apply in_map_iff. now exists (n, l). }
      rewrite Hk, andb_true_r.
      destruct (mem m l) eqn:Em.
      * destruct (Z.eqb_spec x m); [subst; now rewrite Em | now rewrite orb_false_r].
      * rewrite mem_app. simpl. now rewrite orb_false_r.
    + now rewrite orb_false_r.
  - destruct (Z.eqb_spec k n); simpl; [|reflexivity].
    subst. apply adj_get_None in E. apply mem_false in E.
    rewrite E. now rewrite andb_false_r.
Qed.

Lemma present_del_nbr a n m k x :
  present (del_nbr a n m) k x =
  present a k x && negb ((k =? n) && (x =? m)).
Proof.
  unfold present. rewrite adj_get_del_nbr.
  destruct (adj_get a k) as [l|]; simpl; [|reflexivity].
  destruct (Z.eqb_spec k n); simpl.
  - apply mem_filter_neq.
  - now rewrite andb_true_r.
Qed.

End NxFacts.

(** ** The graph methods keep the graph well formed *)

Module NxWf.

Import Nx Props NxFacts.

Lemma wf_empty : wf [].
Proof.
  split; [constructor | split].
  - intros n l [].
  - reflexivity.
Qed.

Lemma nodes_add_node g n :
  nodes (add_node g n) = if has_node g n then nodes g else nodes g ++ [n].
Proof.
  unfold add_node. destruct (has_node g n); [reflexivity|].
  unfold nodes; simpl. now rewrite map_app.
Qed.

Lemma In_nodes_add_node g n k :
  In k (nodes (add_node g n)) <-> In k (nodes g) \/ k = n.
Proof.
  rewrite nodes_add_node. destruct (has_node g n) eqn:E.
  - apply mem_In in E. split; [tauto | intros [H| ->]; assumption].
  - rewrite in_app_iff. simpl. intuition.
Qed.

Lemma present_add_node g n k m :
  present (_adj (add_node g n)) k m = present (_adj g) k m.
Proof.
  unfold add_node. destruct (has_node g n); [reflexivity|].
  simpl. apply present_add_entry.
Qed.

Lemma wf_add_node g n : wf (_adj g) -> wf (_adj (add_node g n)).
Proof.
  intros (Hk & Hl & Hs). split; [|split].
  - change (NoDup (nodes (add_node g n))). rewrite nodes_add_node.
    destruct (has_node g n) eqn:E; [exact Hk|].
    apply mem_false in E.
    apply NoDup_rev in Hk. rewrite <- (rev_involutive (nodes g ++ [n])).
    apply NoDup_rev. rewrite rev_app_distr. simpl. constructor; [|exact Hk].
    now rewrite <- in_rev.
  - intros k l. unfold add_node. destruct (has_node g n); [apply Hl|].
    simpl. rewrite in_app_iff. intros [H|[H|[]]]; [now apply (Hl k)|].
    injection H as _ <-. constructor.
  - intros k m. now rewrite !present_add_node.
Qed.

Lemma In_set_nbr a n m k l' :
  In (k, l') (set_nbr a n m) ->
  exists l, In (k, l) a /\
            l' = if k =? n then (if mem m l then l else l ++ [m]) else l.
Proof.
  unfold set_nbr. rewrite in_map_iff. intros [[k0 l0] [He Hin]]. simpl in He.
  destruct (k0 =? n) eqn:E; injection He as <- <-; exists l0; now rewrite E.
Qed.

Lemma In_del_nbr a n m k l' :
  In (k, l') (del_nbr a n m) ->
  exists l, In (k, l) a /\
            l' = if k =? n then filter (fun x => negb (x =? m)) l else l.
Proof.
  unfold del_nbr. rewrite in_map_iff. intros [[k0 l0] [He Hin]]. simpl in He.
  destruct (k0 =? n) eqn:E; injection He as <- <-; exists l0; now rewrite E.
Qed.

Lemma NoDup_snoc (l : list Z) m : NoDup l -> ~ In m l -> NoDup (l ++ [m]).
Proof.
  intros Hl Hm. apply NoDup_rev in Hl.
  rewrite <- (rev_involutive (l ++ [m])). apply NoDup_rev.
  rewrite rev_app_distr. simpl. constructor; [|exact Hl].
  now rewrite <- in_rev.
Qed.

Lemma lists_set_nbr a n m :
  (forall k l, In (k, l) a -> NoDup l) ->
  forall k l, In (k, l) (set_nbr a n m) -> NoDup l.
Proof.
  intros H k l' Hin. apply In_set_nbr in Hin as [l [Hin ->]].
  specialize (H _ _ Hin). destruct (k =? n); [|exact H].
  destruct (mem m l) eqn:E; [exact H|].
  apply NoDup_snoc; [exact H | now apply mem_false].
Qed.

Lemma lists_del_nbr a n m :
  (forall k l, In (k, l) a -> NoDup l) ->
  forall k l, In (k, l) (del_nbr a n m) -> NoDup l.
Proof.
  intros H k l' Hin. apply In_del_nbr in Hin as [l [Hin ->]].
  specialize (H _ _ Hin). destruct (k =? n); [|exact H].
  now apply NoDup_filter.
Qed.

(** [has_edge] after [add_edge], on any graph. *)
Lemma has_edge_add_edge g u v k x :
  has_edge (add_edge g u v) k x =
  has_edge g k x || ((k =? u) && (x =? v)) || ((k =? v) && (x =? u)).
Proof.
  unfold has_edge, add_edge. cbn [_adj].
  rewrite !present_set_nbr, keys_set_nbr, !present_add_node.
  assert (Hu : mem u (map fst (_adj (add_node (add_node g u) v))) = true).
  { apply mem_In. apply In_nodes_add_node. left.
    apply In_nodes_add_node. now right. }
  assert (Hv : mem v (map fst (_adj (add_node (add_node g u) v))) = true).
  { apply mem_In. apply In_nodes_add_node. now right. }
  rewrite Hu, Hv, !andb_true_r. reflexivity.
Qed.

Lemma wf_add_edge g u v : wf (_adj g) -> wf (_adj (add_edge g u v)).
Proof.
  intros H. pose proof (wf_add_node _ v (wf_add_node _ u H)) as (Hk & Hl & _).
  destruct H as (_ & _ & Hs).
  split; [|split].
  - unfold add_edge. cbn [_adj]. now rewrite !keys_set_nbr.
  - unfold add_edge. cbn [_adj].
    apply lists_set_nbr, lists_set_nbr, Hl.
  - intros k m. change (has_edge (add_edge g u v) k m = has_edge (add_edge g u v) m k).
    rewrite !has_edge_add_edge. unfold has_edge. rewrite (Hs k m).
    destruct (present (_adj g) m k), (k =? u), (m =? v), (k =? v), (m =? u);
      reflexivity.
Qed.

Lemma nodes_add_edge g u v k :
  In k (nodes (add_edge g u v)) <-> In k (nodes g) \/ k = u \/ k = v.
Proof.
  unfold add_edge, nodes. cbn [_adj]. rewrite !keys_set_nbr.
  change (In k (nodes (add_node (add_node g u) v)) <-> In k (nodes g) \/ k = u \/ k = v).
  rewrite !In_nodes_add_node. tauto.
Qed.

(** On a well-formed graph [remove_edge] of a present edge does not raise,
    and removes exactly that edge. *)
Lemma remove_edge_wf g u v :
  wf (_adj g) -> has_edge g u v = true ->
  exists g', remove_edge g u v = Removed g'
    /\ wf (_adj g')
    /\ nodes g' = nodes g
    /\ forall k x, has_edge g' k x =
         has_edge g k x && negb ((k =? u) && (x =? v))
                        && negb ((k =? v) && (x =? u)).
Proof.
  intros (Hk & Hl & Hs) He. unfold remove_edge. unfold has_edge in He.
  rewrite He. destruct (Z.eqb_spec u v) as [->|Hne].
  - eexists. split; [reflexivity|]. cbn [_adj]. split; [|split].
    + split; [|split].
      * now rewrite keys_del_nbr.
      * now apply lists_del_nbr.
      * intros k m. rewrite !present_del_nbr, (Hs k m).
        destruct (Z.eqb_spec k v), (Z.eqb_spec m v); subst; simpl;
          rewrite ?andb_true_r, ?andb_false_r; try reflexivity.
    + unfold nodes. cbn [_adj]. apply keys_del_nbr.
    + intros k x. unfold has_edge. cbn [_adj]. rewrite present_del_nbr.
      now destruct (present (_adj g) k x), ((k =? v) && (x =? v)).
  - assert (E : present (del_nbr (_adj g) u v) v u = true).
    { rewrite present_del_nbr, <- (Hs u v), He.
      destruct (Z.eqb_spec v u); [congruence | reflexivity]. }
    rewrite E. eexists. split; [reflexivity|]. cbn [_adj]. split; [|split].
    + split; [|split].
      * now rewrite !keys_del_nbr.
      * now apply lists_del_nbr, lists_del_nbr.
      * intros k m. rewrite !present_del_nbr, (Hs k m).
        destruct (present (_adj g) m k), (k =? u), (m =? v), (k =? v), (m =? u);
          reflexivity.
    + unfold nodes. cbn [_adj]. now rewrite !keys_del_nbr.
    + intros k x. unfold has_edge. cbn [_adj]. now rewrite !present_del_nbr.
Qed.

End NxWf.

(** ** Counting: the degree sum against the edge view *)

Module Handshake.

Import Nx Props NxFacts NxWf.

Local Open Scope nat_scope.

Lemma full_cons f xs a l :
  full f xs (a :: l) = count (fun b => f b a) xs + full f xs l.
Proof.
  induction xs as [|x xs IH]; simpl; [reflexivity|].
  unfold count in *. simpl. rewrite IH.
  destruct (f x a); simpl; lia.
Qed.

Lemma count_ext f g l :
  (forall x, f x = g x) -> count f l = count g l.
Proof.
  intros H. unfold count. f_equal. apply filter_ext. exact H.
Qed.

(** Double counting for a symmetric relation: every unordered pair is hit
    twice by the full table, the diagonal once. *)
Lemma full_upper f l :
  (forall x y, f x y = f y x) ->
  full f l l + count (fun x => f x x) l = 2 * upper f l.
Proof.
  intros Hs. induction l as [|a l IH]; [reflexivity|].
  cbn [full fold_right upper]. fold (full f l (a :: l)).
  rewrite full_cons.
  rewrite (count_ext (fun b => f b a) (f a)) by (intros; apply Hs).
  unfold count in *. simpl. destruct (f a a); simpl; lia.
Qed.

Lemma NoDup_same_length (l1 l2 : list Z) :
  NoDup l1 -> NoDup l2 -> (forall x, In x l1 <-> In x l2) ->
  length l1 = length l2.
Proof.
  intros H1 H2 H. apply Permutation_length.
  now apply NoDup_Permutation.
Qed.

Section Graph.

Variable a : adjacency.
Hypothesis Hwf : wf a.

Let keys := map fst a.

Lemma entry_present n l m : In (n, l) a -> present a n m = mem m l.
Proof.
  intros Hin. destruct Hwf as (Hk & _ & _).
  unfold present. now rewrite (In_adj_get _ _ _ Hk Hin).
Qed.

Lemma nbr_is_key n l m : In (n, l) a -> In m l -> In m keys.
Proof.
  intros Hin Hm. apply (present_key a m n).
  destruct Hwf as (_ & _ & Hs). rewrite <- Hs.
  rewrite (entry_present _ _ _ Hin). now apply mem_In.
Qed.

Lemma length_nbrs n l : In (n, l) a -> length l = count (present a n) keys.
Proof.
  intros Hin. unfold count. apply NoDup_same_length.
  - destruct Hwf as (_ & Hl & _). exact (Hl _ _ Hin).
  - apply NoDup_filter. now destruct Hwf.
  - intros x. rewrite filter_In, (entry_present _ _ _ Hin), mem_In.
    split; [|tauto]. intros Hx. split; [|exact Hx].
    exact (nbr_is_key _ _ _ Hin Hx).
Qed.

Lemma degree_sum_entries es :
  incl es a ->
  sum (map degree_of es) =
  Z.of_nat (full (present a) (map fst es) keys
            + count (fun x => present a x x) (map fst es)).
Proof.
  induction es as [|[n l] es IH]; intros Hin; [reflexivity|].
  assert (He : In (n, l) a) by (apply Hin; now left).
  assert (Hes : incl es a) by (intros e H; apply Hin; now right).
  cbn [map sum fold_right full fst]. fold (sum (map degree_of es)).
  fold (full (present a) (map fst es) keys).
  rewrite (IH Hes). unfold degree_of. cbn [fst snd].
  rewrite (length_nbrs _ _ He). unfold count. simpl.
  rewrite (entry_present n l n He).
  destruct (mem n l); simpl; lia.
Qed.

Lemma edges_from_length seen pre rest :
  a = pre ++ rest ->
  (forall x, In x seen <-> In x (map fst pre)) ->
  length (edges_from seen rest) = upper (present a) (map fst rest).
Proof.
  revert seen pre. induction rest as [|[n l] rest IH]; intros seen pre Ha Hseen;
    [reflexivity|].
  assert (Hin : In (n, l) a) by (rewrite Ha; apply in_elt).
  assert (Hk : NoDup (map fst pre ++ n :: map fst rest)).
  { destruct Hwf as (Hk & _). rewrite Ha, map_app in Hk. exact Hk. }
  cbn [edges_from map fst upper]. rewrite length_app, length_map.
  rewrite (IH (n :: seen) (pre ++ [(n, l)])).
  - f_equal. unfold count. apply NoDup_same_length.
    + apply NoDup_filter. destruct Hwf as (_ & Hl & _). exact (Hl _ _ Hin).
    + apply NoDup_filter. exact (NoDup_app_remove_l _ _ Hk).
    + intros x. rewrite !filter_In, (entry_present _ _ _ Hin), mem_In.
      rewrite negb_true_iff, mem_false, Hseen. split.
      * intros [Hx Hns]. split; [|exact Hx].
        pose proof (nbr_is_key _ _ _ Hin Hx) as Hxk.
        unfold keys in Hxk. rewrite Ha, map_app in Hxk. simpl in Hxk.
        apply in_app_or in Hxk. tauto.
      * intros [Hx Hl]. split; [exact Hl|].
        intros Hp. revert Hx. change (~ In x (n :: map fst rest)).
        clear - Hk Hp. induction pre as [|[k0 l0] pre IHp]; [destruct Hp|].
        simpl in Hk, Hp. inversion Hk as [|? ? Hn Hk']; subst.
        destruct Hp as [<-|Hp]; [|now apply IHp].
        intros Hx. apply Hn. apply in_or_app. now right.
  - rewrite Ha, <- app_assoc. reflexivity.
  - intros x. rewrite map_app, in_app_iff. simpl. rewrite Hseen. tauto.
Qed.

(** The identity on any well-formed graph. *)
Lemma degree_sum_edges :
  sum (map degree_of a) = (2 * Z.of_nat (length (edges_from [] a)))%Z.
Proof.
  rewrite (degree_sum_entries a (incl_refl a)).
  rewrite (edges_from_length [] [] a eq_refl) by (simpl; tauto).
  fold keys. rewrite full_upper.
  - lia.
  - now destruct Hwf as (_ & _ & Hs).
Qed.

Lemma number_of_edges_length :
  (sum (map degree_of a) / 2)%Z = Z.of_nat (length (edges_from [] a)).
Proof.
  rewrite degree_sum_edges, Z.mul_comm. apply Z.div_mul. discriminate.
Qed.

End Graph.

End Handshake.

(** ** The session invariant *)

Module Session.

Import Nx EdgeStore GraphApp Props NxFacts NxWf.

Lemma In_edges_from seen rest u v :
  In (u, v) (edges_from seen rest) ->
  exists l, In (u, l) rest /\ In v l /\ ~ In v seen.
Proof.
  revert seen. induction rest as [|[n l] rest IH]; intros seen; simpl; [tauto|].
  rewrite in_app_iff, in_map_iff. intros [[x [He Hx]]|H].
  - injection He as <- <-. apply filter_In in Hx as [Hx Hs].
    exists l. repeat split; [now left | exact Hx |].
    apply mem_false. now apply negb_true_iff.
  - apply IH in H as [l' (H1 & H2 & H3)]. exists l'.
    repeat split; [now right | exact H2 |].
    intros Hs. apply H3. now right.
Qed.

Lemma edges_has_edge g u v :
  wf (_adj g) -> In (u, v) (edges g) -> has_edge g u v = true.
Proof.
  intros (Hk & _) Hin. apply In_edges_from in Hin as [l (H1 & H2 & _)].
  unfold has_edge, present. rewrite (In_adj_get _ _ _ Hk H1). now apply mem_In.
Qed.

Lemma In_drop_nth {A} i (l : list A) x : In x (drop_nth i l) -> In x l.
Proof.
  revert i. induction l as [|y l IH]; intros i; destruct i; simpl; try tauto.
  intros [H|H]; [now left | right; eauto].
Qed.

(** [has_edge] after loading rows with [add_edge]. *)
Lemma has_edge_load_rows rows g k x :
  has_edge (load_rows g rows) k x =
  has_edge g k x || existsb (matches k x) rows.
Proof.
  revert g. induction rows as [|[u v] rows IH]; intros g; simpl.
  - now rewrite orb_false_r.
  - unfold load_rows in *. simpl. rewrite IH, has_edge_add_edge.
    unfold matches. simpl.
    rewrite (Z.eqb_sym u k), (Z.eqb_sym v x), (Z.eqb_sym u x), (Z.eqb_sym v k).
    rewrite (andb_comm (x =? u) (k =? v)).
    now rewrite <- !orb_assoc.
Qed.

Lemma wf_load_rows rows g : wf (_adj g) -> wf (_adj (load_rows g rows)).
Proof.
  revert g. induction rows as [|r rows IH]; intros g H; [exact H|].
  unfold load_rows in *. simpl. apply IH. now apply wf_add_edge.
Qed.

Lemma matches_true u v r :
  matches u v r = true <-> r = (u, v) \/ r = (v, u).
Proof.
  destruct r as [a b]. unfold matches. simpl.
  rewrite orb_true_iff, !andb_true_iff, !Z.eqb_eq.
  split.
  - intros [[-> ->]|[-> ->]]; auto.
  - intros [[= -> ->]|[= -> ->]]; auto.
Qed.

Lemma existsb_matches k x rows :
  existsb (matches k x) rows = true <-> In (k, x) rows \/ In (x, k) rows.
Proof.
  rewrite existsb_exists. split.
  - intros [r [Hin Hm]]. apply matches_true in Hm as [->| ->]; auto.
  - intros [H|H]; eexists; (split; [exact H|]); apply matches_true; auto.
Qed.

Lemma Inv_fresh_load rows :
  (forall u v, In (u, v) rows -> u <> v) ->
  (forall u v, In (u, v) rows -> bindable u = true /\ bindable v = true) ->
  Inv (fst (load_from_db (fresh rows))).
Proof.
  intros Hne Hb.
  assert (EG : G (fst (load_from_db (fresh rows))) = load_rows empty rows)
    by reflexivity.
  constructor; rewrite ?EG.
  - apply wf_load_rows. exact wf_empty.
  - intros n. change (has_edge (load_rows empty rows) n n = false).
    rewrite has_edge_load_rows.
    destruct (existsb (matches n n) rows) eqn:E; [|reflexivity].
    apply existsb_matches in E. exfalso.
    destruct E as [E|E]; now apply (Hne _ _ E).
  - intros u v H. change (In (u, v) rows) in H.
    rewrite has_edge_load_rows. apply orb_true_iff. right.
    apply existsb_matches. now left.
  - exact Hb.
  - intros u v [].
Qed.

Lemma Inv_initial : Inv initial.
Proof.
  apply (Inv_fresh_load []); intros u v [].
Qed.

Lemma Inv_rows st u : Inv st -> ~ In (u, u) (db st).
Proof.
  intros I H. apply (inv_db_graph _ I) in H.
  unfold has_edge in H. now rewrite (inv_loop_free _ I) in H.
Qed.

Lemma Inv_startup st : Inv st -> Inv (fst (startup (Some (db st)))).
Proof.
  intros I. unfold startup, init_db. apply Inv_fresh_load.
  - intros u v H ->. exact (Inv_rows _ _ I H).
  - exact (inv_db_bindable _ I).
Qed.

Lemma Inv_add_node st : Inv st -> Inv (fst (add_node st)).
Proof.
  intros [Hw Hl Hd Hb Ha]. constructor; cbn.
  - now apply wf_add_node.
  - intros n. now rewrite present_add_node.
  - intros u v H. unfold has_edge. rewrite present_add_node. now apply Hd.
  - exact Hb.
  - exact Ha.
Qed.

Lemma Inv_animate st u v : Inv st -> u <> v -> Inv (animate_edge st u v).
Proof.
  intros [Hw Hl Hd Hb Ha] Hne. constructor; cbn; try assumption.
  intros a b. rewrite in_app_iff. simpl.
  intros [H|[[= <- <-]|[]]]; [now apply Ha | exact Hne].
Qed.

Lemma Inv_add_edge_from_select st src tgt :
  Inv st -> Inv (fst (add_edge_from_select st src tgt)).
Proof.
  intros I. unfold add_edge_from_select.
  destruct src as [u|], tgt as [v|]; try exact I.
  destruct (Z.eqb_spec u v); [exact I|].
  destruct (has_edge (G st) u v); [exact I|].
  now apply Inv_animate.
Qed.

Lemma Inv_finalize st u v :
  Inv st -> u <> v -> Inv (fst (_finalize_add_edge st u v)).
Proof.
  intros [Hw Hl Hd Hb Ha] Hne. unfold _finalize_add_edge.
  destruct (has_edge (G st) u v) eqn:E; simpl; [now constructor|].
  assert (Hl' : loop_free (_adj (Nx.add_edge (G st) u v))).
  { intros n. change (has_edge (Nx.add_edge (G st) u v) n n = false).
    rewrite has_edge_add_edge. unfold has_edge. rewrite Hl. simpl.
    destruct (Z.eqb_spec n u), (Z.eqb_spec n v); subst; try reflexivity.
    contradiction. }
  assert (Hd' : forall a b, In (a, b) (db st) ->
                            has_edge (Nx.add_edge (G st) u v) a b = true).
  { intros a b H. rewrite has_edge_add_edge, (Hd _ _ H). reflexivity. }
  unfold save_edge. destruct (bindable u && bindable v) eqn:B; cbn.
  - constructor; cbn; try assumption.
    + now apply wf_add_edge.
    + intros a b. rewrite in_app_iff. simpl.
      intros [H|[[= <- <-]|[]]]; [now apply Hd'|].
      rewrite has_edge_add_edge, !Z.eqb_refl. simpl.
      now rewrite orb_true_r.
    + intros a b. rewrite in_app_iff. simpl.
      intros [H|[[= <- <-]|[]]]; [now apply Hb|].
      now apply andb_true_iff.
  - constructor; cbn; try assumption. now apply wf_add_edge.
Qed.

Lemma Inv_animation_done st i : Inv st -> Inv (fst (animation_done st i)).
Proof.
  intros I. unfold animation_done.
  destruct (nth_error (animating st) i) as [[u v]|] eqn:E; [|exact I].
  apply Inv_finalize.
  - destruct I as [Hw Hl Hd Hb Ha]. constructor; cbn; try assumption.
    intros a b H. apply In_drop_nth in H. now apply Ha.
  - apply nth_error_In in E. now apply (inv_animating _ I).
Qed.

Lemma Inv_add_edge st i j : Inv st -> Inv (fst (add_edge st i j)).
Proof.
  intros I. unfold add_edge.
  destruct (length (nodes (G st)) <? 2)%nat; [exact I|].
  destruct (nth_error (nodes (G st)) i) as [u|] eqn:Ei; [|exact I].
  destruct (nth_error (nodes (G st)) j) as [v|] eqn:Ej; [|exact I].
  destruct (Nat.eqb_spec i j); [exact I|].
  destruct (has_edge (G st) u v); [exact I|].
  apply Inv_animate; [exact I|]. intros ->.
  destruct (inv_wf _ I) as (Hk & _).
  apply n. apply (proj1 (NoDup_nth_error (nodes (G st))) Hk).
  - apply nth_error_Some. congruence.
  - congruence.
Qed.

Lemma In_delete u v a b rows :
  In (a, b) (filter (fun r => negb (matches u v r)) rows) <->
  In (a, b) rows /\ (a, b) <> (u, v) /\ (a, b) <> (v, u).
Proof.
  rewrite filter_In, negb_true_iff.
  destruct (matches u v (a, b)) eqn:E.
  - apply matches_true in E. split; [intros [_ H]; discriminate | tauto].
  - split; [|tauto]. intros [H _]. split; [exact H|].
    split; intros H'; rewrite H' in E;
      (assert (T : matches u v (a, b) = true)
         by (apply matches_true; rewrite H'; auto)); congruence.
Qed.

(** Removing a pair: the graph loses that edge if it has it, the table
    its matching rows if the parameters can be bound. *)
Lemma Inv_remove_pair st u v : Inv st -> Inv (fst (remove_pair st u v)).
Proof.
  intros [Hw Hl Hd Hb Ha]. unfold remove_pair.
  destruct (has_edge (G st) u v) eqn:E.
  - destruct (remove_edge_wf _ _ _ Hw E) as [g' (-> & Hw' & _ & He')].
    assert (Hl' : loop_free (_adj g')).
    { intros n. change (has_edge g' n n = false). rewrite He'.
      unfold has_edge. now rewrite Hl. }
    unfold delete_edge. destruct (bindable u && bindable v) eqn:B; cbn.
    + constructor; cbn; try assumption.
      * intros a b H. apply In_delete in H as (H & H1 & H2).
        rewrite He', (Hd _ _ H). simpl.
        destruct (Z.eqb_spec a u), (Z.eqb_spec b v), (Z.eqb_spec a v),
          (Z.eqb_spec b u); subst; simpl; congruence.
      * intros a b H. apply In_delete in H as (H & _). now apply Hb.
    + constructor; cbn; try assumption.
      intros a b H. rewrite He', (Hd _ _ H). simpl.
      destruct (Hb _ _ H) as [Ba Bb].
      destruct (Z.eqb_spec a u), (Z.eqb_spec b v), (Z.eqb_spec a v),
        (Z.eqb_spec b u); subst; simpl; try reflexivity;
        rewrite ?Ba, ?Bb in B; discriminate.
  - unfold delete_edge. destruct (bindable u && bindable v); cbn.
    + constructor; cbn; try assumption.
      * intros a b H. apply In_delete in H as (H & _). now apply Hd.
      * intros a b H. apply In_delete in H as (H & _). now apply Hb.
    + now constructor.
Qed.

Lemma Inv_remove_selected_edge st sel :
  Inv st -> Inv (fst (remove_selected_edge st sel)).
Proof.
  intros I. destruct sel; simpl; try exact I. now apply Inv_remove_pair.
Qed.

Lemma degree_view_degrees g :
  map snd (degree_view g) = map degree_of (_adj g).
Proof. unfold degree_view. rewrite map_map. reflexivity. Qed.

Lemma number_of_edges_wf g :
  wf (_adj g) -> number_of_edges g = Z.of_nat (length (edges g)).
Proof.
  intros H. unfold number_of_edges. rewrite degree_view_degrees.
  now apply Handshake.number_of_edges_length.
Qed.

Lemma remove_edge_is_remove_pair st i u v :
  wf (_adj (G st)) ->
  nth_error (edges (G st)) i = Some (u, v) ->
  remove_edge st i = remove_pair st u v.
Proof.
  intros Hw Hn.
  assert (He : has_edge (G st) u v = true).
  { apply edges_has_edge; [exact Hw | now apply nth_error_In in Hn]. }
  unfold remove_edge, remove_pair. rewrite He, Hn.
  rewrite (number_of_edges_wf _ Hw).
  destruct (edges (G st)) as [|e es]; [destruct i; discriminate|].
  reflexivity.
Qed.

Lemma remove_edge_no_draw st i :
  nth_error (edges (G st)) i = None -> fst (remove_edge st i) = st.
Proof.
  intros E. unfold remove_edge. rewrite E.
  now destruct (number_of_edges (G st) =? 0).
Qed.

Lemma Inv_remove_edge st i : Inv st -> Inv (fst (remove_edge st i)).
Proof.
  intros I.
  destruct (nth_error (edges (G st)) i) as [[u v]|] eqn:E.
  - rewrite (remove_edge_is_remove_pair st i u v (inv_wf _ I) E).
    now apply Inv_remove_pair.
  - now rewrite (remove_edge_no_draw st i E).
Qed.

Lemma Inv_reset_graph st : Inv st -> Inv (fst (reset_graph st)).
Proof.
  intros I. constructor; cbn.
  - exact wf_empty.
  - intros n. reflexivity.
  - intros u v [].
  - intros u v [].
  - exact (inv_animating _ I).
Qed.

Lemma Inv_exec st c : Inv st -> Inv (fst (exec st c)).
Proof.
  intros I. destruct c; cbn [exec fst]; try exact I.
  - now apply Inv_add_node.
  - now apply Inv_add_edge_from_select.
  - now apply Inv_animation_done.
  - now apply Inv_add_edge.
  - now apply Inv_remove_selected_edge.
  - now apply Inv_remove_edge.
  - now apply Inv_reset_graph.
  - now apply Inv_startup.
Qed.

Lemma Inv_run_from cs st : Inv st -> Inv (run_from st cs).
Proof.
  revert st. induction cs as [|c cs IH]; intros st I; [exact I|].
  cbn. apply IH. now apply Inv_exec.
Qed.

Lemma Inv_run cs : Inv (run cs).
Proof. apply Inv_run_from. exact Inv_initial. Qed.

(** The graph stays well formed from any start, whatever the table holds. *)
Lemma wf_finalize st u v :
  wf (_adj (G st)) -> wf (_adj (G (fst (_finalize_add_edge st u v)))).
Proof.
  intros H. unfold _finalize_add_edge.
  destruct (has_edge (G st) u v); cbn [negb]; [exact H|].
  destruct (save_edge (db st) u v); cbn; now apply wf_add_edge.
Qed.

Lemma wf_remove_pair st u v :
  wf (_adj (G st)) -> wf (_adj (G (fst (remove_pair st u v)))).
Proof.
  intros H. unfold remove_pair. destruct (has_edge (G st) u v) eqn:E.
  - destruct (remove_edge_wf _ _ _ H E) as [g' (-> & Hw' & _)].
    now destruct (delete_edge (db st) u v).
  - now destruct (delete_edge (db st) u v).
Qed.

Lemma wf_exec st c :
  wf (_adj (G st)) -> wf (_adj (G (fst (exec st c)))).
Proof.
  intros H. destruct c; cbn [exec fst]; try exact H.
  - now apply wf_add_node.
  - unfold add_edge_from_select.
    destruct src as [u|], tgt as [v|]; try exact H.
    destruct (u =? v); [exact H|]. now destruct (has_edge (G st) u v).
  - unfold animation_done.
    destruct (nth_error (animating st) i) as [[u v]|]; [|exact H].
    now apply wf_finalize.
  - unfold add_edge. destruct (length (nodes (G st)) <? 2)%nat; [exact H|].
    destruct (nth_error (nodes (G st)) i) as [u|]; [|exact H].
    destruct (nth_error (nodes (G st)) j) as [v|]; [|exact H].
    destruct (i =? j)%nat; [exact H|]. now destruct (has_edge (G st) u v).
  - destruct sel; try exact H. now apply wf_remove_pair.
  - destruct (nth_error (edges (G st)) i) as [[u v]|] eqn:E.
    + rewrite (remove_edge_is_remove_pair st i u v H E).
      now apply wf_remove_pair.
    + now rewrite (remove_edge_no_draw st i E).
  - exact wf_empty.
  - apply (wf_load_rows (db st) empty). exact wf_empty.
Qed.

Lemma wf_startup file : wf (_adj (G (fst (startup file)))).
Proof. apply (wf_load_rows (init_db file) empty). exact wf_empty. Qed.

Lemma wf_run_from cs st :
  wf (_adj (G st)) -> wf (_adj (G (run_from st cs))).
Proof.
  revert st. induction cs as [|c cs IH]; intros st H; [exact H|].
  cbn. apply IH. now apply wf_exec.
Qed.

End Session.

(** ** Verification of the handshaking identity *)

Module Verification.

Import Nx EdgeStore GraphApp Props NxFacts NxWf Session.

(** On every well-formed graph the degree sum is twice the length of the
    edge view, [number_of_edges] is that length, and [verify_lemma] takes
    its first branch. *)
Lemma verify_wf st :
  wf (_adj (G st)) ->
  Nx.sum (map snd (degree_view (G st)))
    = 2 * Z.of_nat (length (Nx.edges (G st)))
  /\ number_of_edges (G st) = Z.of_nat (length (Nx.edges (G st)))
  /\ verify_lemma st =
       (mkVerification (map snd (degree_view (G st)))
          (2 * Z.of_nat (length (Nx.edges (G st))))
          (2 * Z.of_nat (length (Nx.edges (G st)))) true,
        [LogVerified]).
Proof.
  intros Hw.
  assert (E : Nx.sum (map snd (degree_view (G st)))
              = 2 * Z.of_nat (length (Nx.edges (G st)))).
  { rewrite degree_view_degrees. now apply Handshake.degree_sum_edges. }
  pose proof (number_of_edges_wf _ Hw) as N.
  split; [exact E | split; [exact N|]].
  unfold verify_lemma. rewrite N, E, Z.eqb_refl. reflexivity.
Qed.

(** C1.  In every state a session can reach, that is after any sequence
    of add-node, add-edge, animation-completion, remove-edge, reset and
    restart commands, from a first start on whatever table [file] holds
    ([None]: no database yet), the sum of the degrees of all nodes is
    twice the number of edges, both as [G.edges()] lists them and as
    [G.number_of_edges()] counts them, and [verify_lemma] finds
    [degree_sum == edge_twice]: [holds] is true and the log line is the
    "Verified" one. *)
Theorem handshaking_holds_in_every_state
  (file : option table) (cs : list Command) :
  let st := run_from (fst (startup file)) cs in
  let v := fst (verify_lemma st) in
  Nx.sum (map snd (degree_view (G st)))
    = 2 * Z.of_nat (length (Nx.edges (G st)))
  /\ number_of_edges (G st) = Z.of_nat (length (Nx.edges (G st)))
  /\ degree_sum v = Nx.sum (map snd (degree_view (G st)))
  /\ edge_twice v = 2 * number_of_edges (G st)
  /\ degree_sum v = edge_twice v
  /\ holds v = true
  /\ snd (verify_lemma st) = [LogVerified].
Proof.
  intros st v. subst v.
  destruct (verify_wf st (wf_run_from cs _ (wf_startup file))) as (E & N & V).
  rewrite V, N. cbn [fst snd degree_sum edge_twice holds].
  repeat split; auto.
Qed.

End Verification.

(** ** The edge view: which tuples [G.edges()] yields *)

Module EdgeView.

Import Nx Props NxFacts NxWf.

(** A yielded tuple [(u, v)] comes from the entry of [u], and [v] is no
    node visited before [u]. *)
Lemma edges_from_sound seen rest u v :
  In (u, v) (edges_from seen rest) ->
  exists pre l post,
    rest = pre ++ (u, l) :: post /\ In v l
    /\ ~ In v seen /\ ~ In v (map fst pre).
Proof.
  revert seen. induction rest as [|[n l] rest IH]; intros seen; simpl; [tauto|].
  rewrite in_app_iff, in_map_iff. intros [[x [He Hx]]|H].
  - injection He as <- <-. apply filter_In in Hx as [Hx Hs].
    exists [], l, rest. repeat split; auto.
    apply mem_false. now apply negb_true_iff.
  - apply IH in H as (pre & l' & post & -> & Hv & Hs & Hp).
    exists ((n, l) :: pre), l', post. simpl. repeat split; auto.
    + intros Hin. apply Hs. now right.
    + intros [<-|Hin]; [apply Hs; now left | now apply Hp].
Qed.

Lemma edges_from_complete pre : forall seen l post u v,
  In v l -> ~ In v seen -> ~ In v (map fst pre) ->
  In (u, v) (edges_from seen (pre ++ (u, l) :: post)).
Proof.
  induction pre as [|[n l0] pre IH]; intros seen l post u v Hv Hs Hp; simpl.
  - apply in_or_app. left. apply in_map. apply filter_In. split; [exact Hv|].
    apply negb_true_iff. now apply mem_false.
  - apply in_or_app. right. apply IH; [exact Hv | |].
    + simpl in Hp. intros [<-|H]; [apply Hp; now left | now apply Hs].
    + simpl in Hp. tauto.
Qed.

Section Graph.

Variable g : Graph.
Hypothesis Hwf : wf (_adj g).

(** Every adjacent pair is yielded, in one orientation. *)
Lemma adjacent_is_edge u v :
  has_edge g u v = true -> In (u, v) (edges g) \/ In (v, u) (edges g).
Proof.
  intros H. pose proof Hwf as (Hk & _ & Hs).
  unfold has_edge, present in H.
  destruct (adj_get (_adj g) u) as [l|] eqn:E; [|discriminate].
  apply mem_In in H. apply adj_get_Some_In in E.
  destruct (in_split _ _ E) as (pre & post & Ea).
  destruct (in_dec Z.eq_dec v (map fst pre)) as [Hin|Hnin].
  - right. apply in_map_iff in Hin as [[v' l'] [Hf Hin]]. simpl in Hf. subst v'.
    destruct (in_split _ _ Hin) as (pre1 & mid & Ep).
    unfold edges. rewrite Ea, Ep, <- app_assoc. simpl.
    apply edges_from_complete.
    + apply mem_In. rewrite <- (Handshake.entry_present _ Hwf v l' u).
      * rewrite Hs. rewrite (Handshake.entry_present _ Hwf u l v E).
        now apply mem_In.
      * rewrite Ea, Ep. apply in_or_app. left. apply in_elt.
    + intros [].
    + intros Hu. rewrite Ea, Ep, <- app_assoc in Hk. simpl in Hk.
      rewrite !map_app in Hk. simpl in Hk. rewrite map_app in Hk. simpl in Hk.
      clear - Hk Hu. induction pre1 as [|[k0 l0] pre1 IHp]; [destruct Hu|].
      simpl in Hk, Hu. inversion Hk as [|? ? Hn Hk']; subst.
      destruct Hu as [<-|Hu]; [|now apply IHp].
      apply Hn. apply in_or_app. right. right. apply in_or_app. right. now left.
  - left. unfold edges. rewrite Ea. apply edges_from_complete; auto.
Qed.

(** The orientation: the first component entered the node dict no later
    than the second. *)
Lemma index_app_notin x l1 l2 :
  ~ In x l1 -> index x (l1 ++ l2) = (length l1 + index x l2)%nat.
Proof.
  induction l1 as [|y l1 IH]; simpl; intros H; [reflexivity|].
  destruct (Z.eqb_spec y x); [exfalso; apply H; now left|].
  rewrite IH by tauto. reflexivity.
Qed.

Lemma edge_orientation u v :
  In (u, v) (edges g) -> (index u (nodes g) <= index v (nodes g))%nat.
Proof.
  intros H. apply edges_from_sound in H as (pre & l & post & E & Hv & _ & Hp).
  pose proof Hwf as (Hk & _). unfold nodes. rewrite E, map_app in *. simpl in *.
  rewrite (index_app_notin v _ _ Hp).
  rewrite index_app_notin.
  - simpl. rewrite Z.eqb_refl. lia.
  - apply NoDup_remove_2 in Hk. intros Hu. apply Hk. apply in_or_app. now left.
Qed.

(** When the node dict is in ascending order, the first component is the
    smaller one. *)
Lemma edge_ascending u v :
  StronglySorted Z.lt (nodes g) -> In (u, v) (edges g) -> u <= v.
Proof.
  intros Hs H.
  apply edges_from_sound in H as (pre & l & post & E & Hv & _ & Hp).
  assert (Hvk : In v (nodes g)).
  { apply (Handshake.nbr_is_key _ Hwf u l v); [|exact Hv].
    rewrite E. apply in_elt. }
  unfold nodes in *. rewrite E, map_app in *. simpl in *.
  apply in_app_or in Hvk as [Hvk|[<-|Hvk]]; [contradiction | lia |].
  clear - Hs Hvk. induction pre as [|[k0 l0] pre IH]; simpl in Hs.
  - apply StronglySorted_inv in Hs as [_ Hf].
    rewrite Forall_forall in Hf. specialize (Hf _ Hvk). lia.
  - apply StronglySorted_inv in Hs as [Hs _]. now apply IH.
Qed.

End Graph.

End EdgeView.

(** ** The edge listing of [refresh_graph] *)

Module Listing.

Import Nx EdgeStore GraphApp Props NxFacts NxWf Session.

Lemma pair_ltb_false x y : pair_ltb y x = false -> pair_le x y.
Proof.
  unfold pair_ltb, pair_le. rewrite orb_false_iff, andb_false_iff.
  rewrite !Z.ltb_ge, Z.eqb_neq. lia.
Qed.

Lemma pair_ltb_true x y : pair_ltb y x = true -> pair_le y x.
Proof.
  unfold pair_ltb, pair_le. rewrite orb_true_iff, andb_true_iff.
  rewrite !Z.ltb_lt, Z.eqb_eq. lia.
Qed.

Lemma pair_le_trans x y z : pair_le x y -> pair_le y z -> pair_le x z.
Proof. unfold pair_le. lia. Qed.

Lemma insert_sorted_perm x l : Permutation (insert_sorted x l) (x :: l).
Proof.
  induction l as [|y l IH]; simpl; [reflexivity|].
  destruct (pair_ltb y x); [|reflexivity].
  rewrite IH. apply perm_swap.
Qed.

Lemma sorted_perm l : Permutation (sorted l) l.
Proof.
  induction l as [|x l IH]; simpl; [reflexivity|].
  rewrite insert_sorted_perm. now constructor.
Qed.

Lemma insert_sorted_Sorted x l :
  Sorted pair_le l -> Sorted pair_le (insert_sorted x l).
Proof.
  induction l as [|y l IH]; simpl; intros H.
  - repeat constructor.
  - destruct (pair_ltb y x) eqn:E.
    + apply Sorted_inv in H as [Hs Hh]. constructor; [now apply IH|].
      destruct l as [|z l]; simpl.
      * constructor. now apply pair_ltb_true.
      * destruct (pair_ltb z x); constructor;
          [now inversion Hh | now apply pair_ltb_true].
    + constructor; [exact H|]. constructor. now apply pair_ltb_false.
Qed.

Lemma sorted_Sorted l : StronglySorted pair_le (sorted l).
Proof.
  apply Sorted_StronglySorted.
  - intros x y z. apply pair_le_trans.
  - induction l as [|x l IH]; simpl; [constructor|].
    now apply insert_sorted_Sorted.
Qed.

Lemma In_edge_list g e : In e (edge_list g) <-> In e (Nx.edges g).
Proof.
  unfold edge_list. split; apply Permutation_in;
    [apply sorted_perm | symmetry; apply sorted_perm].
Qed.

(** Two different nodes sit at different places of the node dict. *)
Lemma index_inj x y l : In x l -> index x l = index y l -> x = y.
Proof.
  induction l as [|z l IH]; simpl; [tauto|].
  destruct (Z.eqb_spec z x), (Z.eqb_spec z y); try congruence.
  intros [H|H] E; [contradiction|]. apply IH; [exact H | congruence].
Qed.

Lemma edges_from_NoDup seen rest :
  NoDup (map fst rest) -> (forall n l, In (n, l) rest -> NoDup l) ->
  NoDup (edges_from seen rest).
Proof.
  revert seen. induction rest as [|[n l] rest IH]; intros seen Hk Hl; simpl.
  - constructor.
  - simpl in Hk. inversion Hk as [|? ? Hn Hk']; subst.
    apply NoDup_app.
    + apply NoDup_map_NoDup_ForallPairs.
      * intros x y _ _ [= ->]. reflexivity.
      * apply NoDup_filter. apply (Hl n). now left.
    + apply IH; [exact Hk'|]. intros k l' H. apply (Hl k). now right.
    + intros [a b] H1 H2. apply in_map_iff in H1 as [x [[= <- <-] _]].
      apply EdgeView.edges_from_sound in H2 as (pre & l' & post & E & _).
      apply Hn. rewrite E, map_app. apply in_or_app. right. now left.
Qed.

Lemma normalize_eq e1 e2 :
  normalize e1 = normalize e2 ->
  e1 = e2 \/ e1 = (snd e2, fst e2).
Proof.
  destruct e1 as [a b], e2 as [c d]. unfold normalize. simpl.
  destruct (a <=? b), (c <=? d); intros [= -> ->]; auto.
Qed.

Lemma normalize_swap u v : normalize (u, v) = normalize (v, u).
Proof.
  unfold normalize. simpl.
  destruct (Z.leb_spec u v), (Z.leb_spec v u); try reflexivity; try lia.
  f_equal; lia.
Qed.

(** Each undirected edge is yielded once. *)
Lemma edges_simple g :
  wf (_adj g) -> NoDup (map normalize (Nx.edges g)).
Proof.
  intros Hw. apply NoDup_map_NoDup_ForallPairs.
  - intros [a b] [c d] H1 H2 E.
    apply normalize_eq in E as [E|E]; [exact E|]. simpl in E.
    injection E as -> ->.
    pose proof (EdgeView.edge_orientation g Hw _ _ H1) as O1.
    pose proof (EdgeView.edge_orientation g Hw _ _ H2) as O2.
    assert (Hd : In d (nodes g)).
    { apply (present_key (_adj g) d c). apply (edges_has_edge g d c Hw H1). }
    f_equal; [|symmetry]; apply (index_inj _ _ (nodes g) Hd); lia.
  - destruct Hw as (Hk & Hl & _). now apply edges_from_NoDup.
Qed.

(** C9, as the specification states it, fails: after the user connects 2
    to 1 on an empty graph, node 2 is the first key of the node dict, the
    edge view yields [(2, 1)], and the listing shows that tuple, whose
    first component is the larger one. *)
Lemma edge_list_not_normalized :
  ~ (forall cs u v, In (u, v) (edge_list (G (run cs))) -> u < v).
Proof.
  intros H. specialize (H (connect 2 1) 2 1).
  assert (E : edge_list (G (run (connect 2 1))) = [(2, 1)]) by reflexivity.
  rewrite E in H. specialize (H (or_introl eq_refl)). lia.
Qed.

(** C9, amended.  In every state of a session the edge listing is sorted
    ascending by [(u, v)] and holds every undirected edge exactly once;
    the tuple of an edge starts with the endpoint that entered the node
    dict first, and its endpoints differ.  So [u < v] holds for all tuples
    when the node dict is in ascending order, and not in general. *)
Theorem edge_list_sorted_and_oriented (cs : list Command) :
  let g := G (run cs) in
  StronglySorted pair_le (edge_list g)
  /\ Permutation (edge_list g) (Nx.edges g)
  /\ NoDup (map normalize (edge_list g))
  /\ (forall u v, has_edge g u v = true ->
                  In (u, v) (edge_list g) \/ In (v, u) (edge_list g))
  /\ (forall u v, In (u, v) (edge_list g) ->
        has_edge g u v = true /\ u <> v
        /\ (index u (nodes g) <= index v (nodes g))%nat)
  /\ (StronglySorted Z.lt (nodes g) ->
      forall u v, In (u, v) (edge_list g) -> u < v).
Proof.
  intros g. pose proof (Inv_run cs) as I. fold g in I.
  pose proof (inv_wf _ I) as Hw. fold g in Hw.
  assert (Hne : forall u v, In (u, v) (edge_list g) -> u <> v).
  { intros u v H ->. apply In_edge_list in H.
    apply (edges_has_edge g v v Hw) in H.
    unfold has_edge in H. subst g. now rewrite (inv_loop_free _ I) in H. }
  split; [apply sorted_Sorted|].
  split; [apply sorted_perm|].
  split.
  { apply (Permutation_NoDup (l := map normalize (Nx.edges g))).
    - apply Permutation_map. symmetry. apply sorted_perm.
    - now apply edges_simple. }
  split.
  { intros u v H. rewrite !In_edge_list. now apply EdgeView.adjacent_is_edge. }
  split.
  { intros u v H. split; [|split].
    - apply edges_has_edge; [exact Hw | now apply In_edge_list].
    - now apply Hne.
    - apply EdgeView.edge_orientation; [exact Hw | now apply In_edge_list]. }
  intros Hs u v H. pose proof (Hne _ _ H) as Hn.
  apply In_edge_list in H.
  pose proof (EdgeView.edge_ascending g Hw u v Hs H). lia.
Qed.

End Listing.

(** ** Persisting edges and loading them back *)

Module Persistence.

Import Nx EdgeStore GraphApp Props NxFacts NxWf Session Listing.

Lemma nodes_load_rows rows g n :
  In n (nodes (load_rows g rows)) <-> In n (nodes g) \/ In n (endpoints rows).
Proof.
  revert g. induction rows as [|[u v] rows IH]; intros g.
  - simpl. tauto.
  - change (load_rows g ((u, v) :: rows))
      with (load_rows (Nx.add_edge g u v) rows).
    change (endpoints ((u, v) :: rows)) with (u :: v :: endpoints rows).
    rewrite IH, nodes_add_edge. simpl. intuition (subst; auto).
Qed.

Lemma persist_cons t e es :
  persist t (e :: es) =
  match save_edge t (fst e) (snd e) with
  | Some t' => persist t' es
  | None => None
  end.
Proof.
  unfold persist. simpl. destruct (save_edge t (fst e) (snd e)); [reflexivity|].
  induction es as [|e' es IH]; [reflexivity | exact IH].
Qed.

Lemma persist_from es : forall t rows,
  persist t es = Some rows ->
  rows = t ++ es
  /\ Forall (fun e => bindable (fst e) && bindable (snd e) = true) es.
Proof.
  induction es as [|[u v] es IH]; intros t rows.
  - intros [= <-]. now rewrite app_nil_r.
  - rewrite persist_cons. unfold save_edge. simpl.
    destruct (bindable u && bindable v) eqn:B; [|discriminate].
    intros H. apply IH in H as [-> F]. rewrite <- app_assoc. split; auto.
Qed.

Lemma persist_bindable es :
  Forall (fun e => bindable (fst e) && bindable (snd e) = true) es ->
  forall t, persist t es = Some (t ++ es).
Proof.
  induction es as [|[u v] es IH]; intros F t.
  - unfold persist. simpl. now rewrite app_nil_r.
  - inversion F as [|? ? B F']; subst. simpl in B.
    rewrite persist_cons. unfold save_edge. simpl. rewrite B.
    rewrite (IH F' (t ++ [(u, v)])). now rewrite <- app_assoc.
Qed.

(** C2.  A fresh start on a table holding [rows] builds a graph whose
    nodes are exactly the endpoints of the rows and whose edges, taken as
    unordered pairs, are exactly the rows taken as unordered pairs, each
    once; the table is what [save_edge] was called with, in order.  For
    the pairs (1,2), (2,3), (3,1) the reloaded graph has nodes 1, 2, 3
    and edges (1,2), (1,3), (2,3). *)
Theorem store_round_trip (rows : table) :
  let g := G (fst (startup (Some rows))) in
  (forall es, persist [] es = Some rows <->
     rows = es
     /\ Forall (fun e => bindable (fst e) && bindable (snd e) = true) es)
  /\ (forall n, In n (nodes g) <-> In n (endpoints rows))
  /\ (forall p, In p (map normalize (Nx.edges g))
               <-> In p (map normalize rows))
  /\ NoDup (map normalize (Nx.edges g))
  /\ persist [] [(1, 2); (2, 3); (3, 1)] = Some [(1, 2); (2, 3); (3, 1)]
  /\ node_list (G (fst (startup (Some [(1, 2); (2, 3); (3, 1)])))) = [1; 2; 3]
  /\ edge_list (G (fst (startup (Some [(1, 2); (2, 3); (3, 1)]))))
     = [(1, 2); (1, 3); (2, 3)]
  /\ map normalize [(1, 2); (2, 3); (3, 1)] = [(1, 2); (2, 3); (1, 3)].
Proof.
  intros g.
  assert (Eg : g = load_rows empty rows) by reflexivity.
  assert (Hw : wf (_adj g)).
  { rewrite Eg. apply wf_load_rows. exact wf_empty. }
  split.
  { intros es. split.
    - intros H. now apply persist_from in H as [-> F].
    - intros [-> F]. now apply (persist_bindable es F []). }
  split.
  { intros n. rewrite Eg, nodes_load_rows. simpl. tauto. }
  split.
  { intros p. rewrite !in_map_iff. split.
    - intros [[u v] [<- H]]. apply (edges_has_edge g u v Hw) in H.
      rewrite Eg, has_edge_load_rows in H. simpl in H.
      apply existsb_matches in H as [H|H].
      + now exists (u, v).
      + exists (v, u). split; [apply normalize_swap | exact H].
    - intros [[u v] [<- H]].
      assert (A : has_edge g u v = true).
      { rewrite Eg, has_edge_load_rows. apply orb_true_iff. right.
        apply existsb_matches. now left. }
      apply (EdgeView.adjacent_is_edge g Hw) in A as [A|A].
      + now exists (u, v).
      + exists (v, u). split; [apply normalize_swap | exact A]. }
  split; [now apply edges_simple|].
  repeat split; reflexivity.
Qed.

End Persistence.

(** ** The Euler classification *)

Module EulerCheck.

Import Nx EdgeStore GraphApp Props NxFacts NxWf Session.

Lemma odd_degree_nodes_length g :
  length (odd_degree_nodes g)
  = length (filter (fun d => negb (d mod 2 =? 0)) (map snd (degree_view g))).
Proof.
  unfold odd_degree_nodes. rewrite length_map.
  induction (degree_view g) as [|[n d] l IH]; simpl; [reflexivity|].
  destruct (d mod 2 =? 0); simpl; now rewrite IH.
Qed.

(** The parity of a sum is the parity of the number of odd summands. *)
Lemma sum_parity l :
  Z.even (Nx.sum l)
  = Nat.even (length (filter (fun d => negb (d mod 2 =? 0)) l)).
Proof.
  induction l as [|d l IH]; [reflexivity|].
  cbn [Nx.sum fold_right filter]. fold (Nx.sum l).
  rewrite Z.even_add, IH.
  assert (E : (d mod 2 =? 0) = Z.even d).
  { rewrite Zeven_mod. reflexivity. }
  rewrite E. destruct (Z.even d); cbn [negb length].
  - now destruct (Nat.even _).
  - rewrite Nat.even_succ, <- Nat.negb_even. now destruct (Nat.even _).
Qed.

(** In a session the number of odd-degree nodes is even. *)
Lemma odd_count_even cs :
  Nat.even (length (odd_degree_nodes (G (run cs)))) = true.
Proof.
  rewrite odd_degree_nodes_length, <- sum_parity.
  destruct (Verification.verify_wf _ (inv_wf _ (Inv_run cs))) as (E & _).
  rewrite E, Z.even_mul. reflexivity.
Qed.

(** C3, as the specification states it, fails on its third example: the
    star with centre 1 and leaves 2, 3, 4 has degrees 3, 1, 1, 1, all four
    odd, and the classification reports the count 4, not 3. *)
Lemma star_odd_count_is_not_three :
  map snd (degree_view (G star)) = [3; 1; 1; 1]
  /\ fst (euler_path_check star) <> NoEuler 3.
Proof.
  split; [reflexivity|].
  assert (E : fst (euler_path_check star) = NoEuler 4) by reflexivity.
  rewrite E. discriminate.
Qed.

(** C3, amended.  [euler_path_check] answers Circuit exactly when no node
    has odd degree, Path exactly when two have, and otherwise None with
    the number of odd-degree nodes; the answer is a function of the degree
    sequence alone, so connectivity plays no part (two disjoint triangles
    are a Circuit).  The triangle is a Circuit, the path 1-2-3 a Path, and
    the star with three leaves is None with odd count 4. *)
Theorem euler_classification (st st' : State) :
  let odd := length (odd_degree_nodes (G st)) in
  (fst (euler_path_check st) = Circuit <-> odd = 0%nat)
  /\ (fst (euler_path_check st) = Path <-> odd = 2%nat)
  /\ (forall k, fst (euler_path_check st) = NoEuler k <->
                k = odd /\ odd <> 0%nat /\ odd <> 2%nat)
  /\ (map snd (degree_view (G st')) = map snd (degree_view (G st)) ->
      fst (euler_path_check st') = fst (euler_path_check st))
  /\ fst (euler_path_check triangle) = Circuit
  /\ fst (euler_path_check path_graph) = Path
  /\ fst (euler_path_check star) = NoEuler 4
  /\ fst (euler_path_check two_triangles) = Circuit.
Proof.
  intros odd.
  assert (C : forall s,
             fst (euler_path_check s) =
             match length (odd_degree_nodes (G s)) with
             | 0%nat => Circuit
             | 2%nat => Path
             | k => NoEuler k
             end).
  { intros s. unfold euler_path_check.
    destruct (length (odd_degree_nodes (G s))) as [|[|[|k]]]; reflexivity. }
  rewrite (C st). fold odd.
  split; [|split; [|split; [|split]]].
  - destruct odd as [|[|[|k]]]; split; congruence.
  - destruct odd as [|[|[|k]]]; split; congruence.
  - intros k. destruct odd as [|[|[|j]]]; split;
      try discriminate; try (intros [? [? ?]]; congruence);
      try (intros [= <-]; repeat split; congruence).
  - intros E. rewrite (C st'). unfold odd.
    now rewrite !odd_degree_nodes_length, E.
  - repeat split; reflexivity.
Qed.

End EulerCheck.

(** ** Adding and removing edges *)

Module EdgeCommands.

Import Nx EdgeStore GraphApp Props NxFacts NxWf Session.

(** C4.  A request to connect a node to itself is answered with the
    "Cannot connect a node to itself." error and nothing else happens: the
    state is the same, so the node display, the edge listing and the
    table are the same, and no animation (hence no later write) is
    started.  This holds in every state and for every integer [u]. *)
Theorem self_loop_request_rejected (st : State) (u : Z) :
  let r := add_edge_from_select st (Some u) (Some u) in
  r = (st, [ErrSelfLoop])
  /\ node_list (G (fst r)) = node_list (G st)
  /\ edge_list (G (fst r)) = edge_list (G st)
  /\ Nx.nodes (G (fst r)) = Nx.nodes (G st)
  /\ Nx.edges (G (fst r)) = Nx.edges (G st)
  /\ db (fst r) = db st
  /\ animating (fst r) = animating st
  /\ existsb is_rejection (snd r) = true.
Proof.
  unfold add_edge_from_select. rewrite Z.eqb_refl. cbn.
  repeat split; reflexivity.
Qed.

(** C5.  In a session, once the edge between [u] and [v] is in the graph
    (as [has_edge u v] sees it), the endpoints differ and a request for
    [(v, u)] is answered with the "already exists" notice; the state is
    the same: no animation is started, the graph and the table are
    untouched.  The commit step for [(v, u)] would change nothing either. *)
Theorem reversed_request_is_duplicate (cs : list Command) (u v : Z) :
  has_edge (G (run cs)) u v = true ->
  u <> v
  /\ add_edge_from_select (run cs) (Some v) (Some u)
     = (run cs, [InfoEdgeExists v u])
  /\ _finalize_add_edge (run cs) v u = (run cs, [])
  /\ is_rejection (InfoEdgeExists v u) = true.
Proof.
  intros H. pose proof (Inv_run cs) as I.
  assert (Hne : u <> v).
  { intros ->. unfold has_edge in H. now rewrite (inv_loop_free _ I) in H. }
  assert (Hr : has_edge (G (run cs)) v u = true).
  { unfold has_edge. destruct (inv_wf _ I) as (_ & _ & Hs). now rewrite Hs. }
  split; [exact Hne|]. split; [|split; [|reflexivity]].
  - unfold add_edge_from_select. rewrite Hr.
    destruct (Z.eqb_spec v u); [congruence | reflexivity].
  - unfold _finalize_add_edge. now rewrite Hr.
Qed.

Lemma reversed_request_is_duplicate_witness :
  has_edge (G (run (connect 1 2))) 1 2 = true
  /\ add_edge_from_select (run (connect 1 2)) (Some 2) (Some 1)
     = (run (connect 1 2), [InfoEdgeExists 2 1]).
Proof.
  split; [reflexivity|].
  exact (proj1 (proj2 (reversed_request_is_duplicate (connect 1 2) 1 2 eq_refl))).
Defined.

(** While the animation of [(u, v)] still runs the edge is not in the
    graph yet, so a request for [(v, u)] starts a second animation; its
    commit then finds the edge and writes nothing. *)
Lemma reversed_request_during_animation :
  let st := run [AddEdgeFromSelect (Some 1) (Some 2)] in
  add_edge_from_select st (Some 2) (Some 1) = (animate_edge st 2 1, [])
  /\ db (run [AddEdgeFromSelect (Some 1) (Some 2);
              AddEdgeFromSelect (Some 2) (Some 1);
              AnimationDone 0; AnimationDone 0]) = [(1, 2)].
Proof. split; reflexivity. Qed.

Lemma filter_all {A} (f : A -> bool) l :
  (forall x, In x l -> f x = true) -> filter f l = l.
Proof.
  induction l as [|x l IH]; intros H; simpl; [reflexivity|].
  rewrite (H x (or_introl eq_refl)). f_equal. apply IH.
  intros y Hy. apply H. now right.
Qed.

(** In a session no row of the table matches a pair that is not an edge. *)
Lemma absent_pair_has_no_row cs u v :
  has_edge (G (run cs)) u v = false ->
  filter (fun r => negb (matches u v r)) (db (run cs)) = db (run cs).
Proof.
  intros H. pose proof (Inv_run cs) as I. apply filter_all.
  intros [a b] Hin. apply negb_true_iff.
  destruct (matches u v (a, b)) eqn:E; [|reflexivity].
  apply (inv_db_graph _ I) in Hin.
  apply matches_true in E as [[= -> ->]|[= -> ->]]; [congruence|].
  destruct (inv_wf _ I) as (_ & _ & Hs). unfold has_edge in *.
  rewrite Hs in Hin. congruence.
Qed.

End EdgeCommands.

(** ** The commit step of an added edge *)

Module Commit.

Import Nx EdgeStore GraphApp Props NxFacts NxWf Session.

Lemma finalize_present st u v :
  has_edge (G st) u v = true -> _finalize_add_edge st u v = (st, []).
Proof. intros H. unfold _finalize_add_edge. now rewrite H. Qed.

Lemma finalize_makes_present st u v :
  has_edge (G (fst (_finalize_add_edge st u v))) u v = true.
Proof.
  unfold _finalize_add_edge. destruct (has_edge (G st) u v) eqn:E; [exact E|].
  cbn [negb].
  assert (A : has_edge (Nx.add_edge (G st) u v) u v = true).
  { rewrite has_edge_add_edge, !Z.eqb_refl. cbn. now rewrite orb_true_r. }
  destruct (save_edge (db st) u v); exact A.
Qed.

(** C10.  [_finalize_add_edge] looks the pair up again before it changes
    anything: for a pair that is in the graph it returns the state as it
    got it (graph and table untouched, nothing logged); running it twice
    for the same pair leaves the state of running it once; one call adds
    at most the one row [(u, v)] to the table, and two calls add no more.
    Two overlapping requests for the same pair that both run to their end
    leave the state of a single request, with one row. *)
Theorem commit_rechecks_presence (st : State) (u v : Z) :
  let once := fst (_finalize_add_edge st u v) in
  let twice := fst (_finalize_add_edge once u v) in
  (has_edge (G st) u v = true -> _finalize_add_edge st u v = (st, []))
  /\ _finalize_add_edge once u v = (once, [])
  /\ twice = once
  /\ (db once = db st \/ db once = db st ++ [(u, v)])
  /\ db twice = db once
  /\ run [AddEdgeFromSelect (Some 1) (Some 2); AddEdgeFromSelect (Some 1) (Some 2);
          AnimationDone 0; AnimationDone 0]
     = run [AddEdgeFromSelect (Some 1) (Some 2); AnimationDone 0]
  /\ db (run [AddEdgeFromSelect (Some 1) (Some 2);
              AddEdgeFromSelect (Some 1) (Some 2);
              AnimationDone 0; AnimationDone 0]) = [(1, 2)].
Proof.
  intros once twice.
  assert (E : _finalize_add_edge once u v = (once, [])).
  { apply finalize_present. apply finalize_makes_present. }
  split; [apply finalize_present|].
  split; [exact E|].
  split; [subst twice; now rewrite E|].
  split.
  { subst once. unfold _finalize_add_edge.
    destruct (has_edge (G st) u v); cbn [negb]; [now left|].
    unfold save_edge. destruct (bindable u && bindable v); cbn; auto. }
  split; [subst twice; now rewrite E|].
  split; reflexivity.
Qed.

End Commit.

(** ** Node ids *)

Module NodeIds.

Import Nx EdgeStore GraphApp Props NxFacts NxWf Session.

Lemma max_of_ge x l : x <= max_of x l /\ Forall (fun y => y <= max_of x l) l.
Proof.
  induction l as [|y l [IH1 IH2]]; simpl; [split; [lia | constructor]|].
  split; [lia|]. constructor; [lia|].
  rewrite Forall_forall in *. intros z Hz. specialize (IH2 z Hz). lia.
Qed.

(** [load_from_db] leaves the counter above every node it created. *)
Lemma startup_counter_above_nodes file n :
  In n (nodes (G (fst (startup file)))) ->
  n < next_node_id (fst (startup file)).
Proof.
  unfold startup. set (rows := init_db file). intros H.
  change (In n (nodes (load_rows empty rows))) in H.
  apply Persistence.nodes_load_rows in H as [[]|H].
  change (next_node_id (fst (load_from_db (fresh rows))))
    with (match endpoints rows with [] => 1 | m :: ms => max_of m ms + 1 end).
  destruct (endpoints rows) as [|m ms]; [destruct H|].
  destruct (max_of_ge m ms) as [H1 H2]. rewrite Forall_forall in H2.
  destruct H as [<-|H]; [lia|]. specialize (H2 _ H). lia.
Qed.


(** C7.  The code at the failing input: on a first start the user
    connects 1 and 2, which creates both nodes and leaves the counter at
    1; the next "Add Node" hands out the id 1, which is in use, inserts
    nothing and logs "Added Node 1". *)
Theorem add_node_reuses_typed_id :
  let st := run (connect 1 2) in
  nodes (G st) = [1; 2]
  /\ next_node_id st = 1
  /\ allocated_id st = 1
  /\ In (allocated_id st) (nodes (G st))
  /\ G (fst (add_node st)) = G st
  /\ snd (add_node st) = [LogAddedNode 1]
  /\ degree (G (fst (add_node st))) 1 = 1.
Proof.
  cbv zeta. repeat split; try reflexivity. now left.
Qed.

End NodeIds.

(** ** No self-loops *)

Module SimpleGraph.

Import Nx EdgeStore GraphApp Props NxFacts NxWf Session.

(** What the property rests on: [load_from_db] adds every row it reads,
    so a table that some other program filled with a row of equal source
    and target gives a self-loop. *)
Lemma self_loop_row_is_loaded :
  has_edge (G (fst (startup (Some [(1, 1)])))) 1 1 = true.
Proof. reflexivity. Qed.

(** From a first start on any table of rows with different source and
    target, no state has a self-loop. *)
Lemma no_self_loop_from_table file cs :
  (forall u v, In (u, v) (init_db file) ->
               u <> v /\ bindable u = true /\ bindable v = true) ->
  forall u, has_edge (G (run_from (fst (startup file)) cs)) u u = false.
Proof.
  intros H.
  assert (I : Inv (run_from (fst (startup file)) cs)).
  { apply Inv_run_from. apply Inv_fresh_load.
    - intros u v Hin. now apply H.
    - intros u v Hin. now apply H. }
  exact (inv_loop_free _ I).
Qed.

(** C8.  In every state of a session that began without a database file,
    through any number of commands and restarts, no edge is a self-loop:
    no tuple of the edge view or of the edge listing has equal components,
    no node is its own neighbour, and no row of the table, from which the
    next start rebuilds the graph, has equal source and target. *)
Theorem no_self_loop_in_any_state (cs : list Command) :
  let st := run cs in
  (forall u v, In (u, v) (Nx.edges (G st)) -> u <> v)
  /\ (forall u v, In (u, v) (edge_list (G st)) -> u <> v)
  /\ (forall u, has_edge (G st) u u = false)
  /\ (forall u v, In (u, v) (db st) -> u <> v)
  /\ (forall u v, In (u, v) (Nx.edges (G (fst (startup (Some (db st)))))) ->
                  u <> v).
Proof.
  intros st. pose proof (Inv_run cs) as I. fold st in I.
  assert (L : forall s, Inv s ->
                forall u v, In (u, v) (Nx.edges (G s)) -> u <> v).
  { intros s Is u v H ->. apply (edges_has_edge _ _ _ (inv_wf _ Is)) in H.
    unfold has_edge in H. now rewrite (inv_loop_free _ Is) in H. }
  split; [now apply L|]. split; [|split; [|split]].
  - intros u v H. apply Listing.In_edge_list in H. now apply (L st I).
  - exact (inv_loop_free _ I).
  - intros u v H ->. exact (Inv_rows _ _ I H).
  - apply L. now apply Inv_startup.
Qed.

End SimpleGraph.


(** ** The table follows the graph *)

Module StoreSync.

Import Nx EdgeStore GraphApp Props NxFacts NxWf Session.

Lemma has_edge_sym st u v :
  Inv st -> has_edge (G st) u v = has_edge (G st) v u.
Proof. intros I. destruct (inv_wf _ I) as (_ & _ & Hs). apply Hs. Qed.

Lemma normalize_row_eq r u v :
  normalize r = normalize (u, v) -> r = (u, v) \/ r = (v, u).
Proof.
  destruct r as [a b]. unfold normalize. simpl.
  destruct (a <=? b), (u <=? v); intros [= -> ->]; auto.
Qed.

Lemma NoDup_map_filter {A B} (f : A -> B) (p : A -> bool) l :
  NoDup (map f l) -> NoDup (map f (filter p l)).
Proof.
  induction l as [|x l IH]; simpl; intros H; [constructor|].
  inversion H as [|? ? Hn Hd]; subst. destruct (p x); simpl.
  - constructor; [|now apply IH].
    intros Hin. apply Hn. apply in_map_iff in Hin as [y [E Hy]].
    apply in_map_iff. exists y. split; [exact E|]. now apply filter_In in Hy.
  - now apply IH.
Qed.

Lemma NoDup_map_snoc {A B} (f : A -> B) l x :
  NoDup (map f l) -> ~ In (f x) (map f l) -> NoDup (map f (l ++ [x])).
Proof.
  induction l as [|y l IH]; simpl; intros H Hn.
  - repeat constructor. intros [].
  - inversion H as [|? ? Hy Hd]; subst. constructor.
    + rewrite map_app, in_app_iff. simpl. intros [Hin|[E|[]]]; [tauto|].
      apply Hn. now left.
    + apply IH; [exact Hd|]. intros Hin. apply Hn. now right.
Qed.

Lemma Sync_fresh_load rows :
  NoDup (map normalize rows) -> Sync (fst (load_from_db (fresh rows))).
Proof.
  intros Hn.
  assert (EG : G (fst (load_from_db (fresh rows))) = load_rows empty rows)
    by reflexivity.
  constructor; [|exact Hn].
  intros u v H _ _. rewrite EG, has_edge_load_rows in H. simpl in H.
  now apply existsb_matches in H.
Qed.

Lemma Sync_finalize st u v :
  Inv st -> Sync st -> Sync (fst (_finalize_add_edge st u v)).
Proof.
  intros I [Hc Hn]. unfold _finalize_add_edge.
  destruct (has_edge (G st) u v) eqn:E; cbn [negb]; [now constructor|].
  unfold save_edge. destruct (bindable u && bindable v) eqn:B; cbn.
  - constructor; cbn.
    + intros a b H Ba Bb. rewrite has_edge_add_edge in H.
      rewrite !in_app_iff. simpl.
      apply orb_true_iff in H as [H|H]; [apply orb_true_iff in H as [H|H]|].
      * destruct (Hc _ _ H Ba Bb); auto.
      * apply andb_true_iff in H as [H1 H2].
        apply Z.eqb_eq in H1, H2. subst. auto.
      * apply andb_true_iff in H as [H1 H2].
        apply Z.eqb_eq in H1, H2. subst. auto.
    + apply NoDup_map_snoc; [exact Hn|].
      intros Hin. apply in_map_iff in Hin as [r [Er Hr]].
      apply normalize_row_eq in Er as [->| ->];
        apply (inv_db_graph _ I) in Hr; [congruence|].
      rewrite (has_edge_sym _ _ _ I) in Hr. congruence.
  - constructor; cbn; [|exact Hn].
    intros a b H Ba Bb. rewrite has_edge_add_edge in H.
    apply orb_true_iff in H as [H|H]; [apply orb_true_iff in H as [H|H]|].
    + now apply Hc.
    + apply andb_true_iff in H as [H1 H2]. apply Z.eqb_eq in H1, H2. subst.
      rewrite Ba, Bb in B. discriminate.
    + apply andb_true_iff in H as [H1 H2]. apply Z.eqb_eq in H1, H2. subst.
      rewrite Ba, Bb in B. discriminate.
Qed.

Lemma Sync_remove_pair st u v :
  Inv st -> Sync st -> Sync (fst (remove_pair st u v)).
Proof.
  intros I [Hc Hn]. unfold remove_pair.
  assert (K : forall g' : Graph,
             (forall a b, has_edge g' a b = true ->
                has_edge (G st) a b = true
                /\ (has_edge (G st) u v = true ->
                    (a, b) <> (u, v) /\ (a, b) <> (v, u))) ->
             Sync (fst (match delete_edge (db st) u v with
                        | Some t => (mkState g' (next_node_id st) t (animating st),
                                     [LogRemovedEdge u v])
                        | None => (with_G st g', [Uncaught])
                        end))).
  { intros g' Hg. unfold delete_edge.
    destruct (bindable u && bindable v); cbn.
    - constructor; cbn; [|now apply NoDup_map_filter].
      intros a b H Ba Bb. destruct (Hg _ _ H) as [H0 Hne].
      assert (Hab : (a, b) <> (u, v) /\ (a, b) <> (v, u)).
      { destruct (has_edge (G st) u v) eqn:E; [now apply Hne|].
        split; intros [= -> ->]; [congruence|].
        rewrite (has_edge_sym _ _ _ I) in H0. congruence. }
      destruct Hab as [N1 N2].
      destruct (Hc _ _ H0 Ba Bb) as [R|R]; [left|right];
        apply In_delete; (split; [exact R|]); split; congruence.
    - constructor; cbn; [|exact Hn].
      intros a b H Ba Bb. destruct (Hg _ _ H) as [H0 _]. now apply Hc. }
  destruct (has_edge (G st) u v) eqn:E.
  - destruct (remove_edge_wf _ _ _ (inv_wf _ I) E) as [g' (-> & _ & _ & He')].
    apply K. intros a b H. rewrite He' in H.
    apply andb_true_iff in H as [H H2]. apply andb_true_iff in H as [H H1].
    split; [exact H|]. intros _. apply negb_true_iff in H1, H2.
    split; intros [= -> ->]; rewrite !Z.eqb_refl in *; discriminate.
  - apply K. intros a b H. split; [exact H | discriminate].
Qed.

Lemma Sync_exec st c : Inv st -> Sync st -> Sync (fst (exec st c)).
Proof.
  intros I S. destruct c; cbn [exec fst]; try exact S.
  - destruct S as [Hc Hn]. constructor; cbn; [|exact Hn].
    intros u v H. unfold has_edge in H. rewrite present_add_node in H.
    now apply Hc.
  - unfold add_edge_from_select.
    destruct src as [u|], tgt as [v|]; try exact S.
    destruct (u =? v); [exact S|].
    destruct (has_edge (G st) u v); [exact S|]. now destruct S.
  - unfold animation_done.
    destruct (nth_error (animating st) i) as [[u v]|] eqn:E; [|exact S].
    apply Sync_finalize.
    + destruct I as [Hw Hl Hd Hb Ha]. constructor; cbn; try assumption.
      intros a b H. apply In_drop_nth in H. now apply Ha.
    + now destruct S.
  - unfold add_edge. destruct (length (nodes (G st)) <? 2)%nat; [exact S|].
    destruct (nth_error (nodes (G st)) i) as [u|]; [|exact S].
    destruct (nth_error (nodes (G st)) j) as [v|]; [|exact S].
    destruct (i =? j)%nat; [exact S|].
    destruct (has_edge (G st) u v); [exact S|]. now destruct S.
  - destruct sel; try exact S. now apply Sync_remove_pair.
  - destruct (nth_error (edges (G st)) i) as [[u v]|] eqn:E.
    + rewrite (remove_edge_is_remove_pair st i u v (inv_wf _ I) E).
      now apply Sync_remove_pair.
    + now rewrite (remove_edge_no_draw st i E).
  - constructor; cbn; [intros u v H; discriminate | constructor].
  - apply Sync_fresh_load. exact (sync_once _ S).
Qed.

Lemma Sync_run cs : Sync (run cs).
Proof.
  assert (H : forall st, Inv st -> Sync st -> Sync (run_from st cs)).
  { induction cs as [|c cs IH]; intros st I S; [exact S|].
    cbn. apply IH; [now apply Inv_exec | now apply Sync_exec]. }
  apply H; [exact Inv_initial|]. apply (Sync_fresh_load []). constructor.
Qed.

Lemma run_snoc cs c : run (cs ++ [c]) = fst (exec (run cs) c).
Proof. unfold run, run_from. now rewrite fold_left_app. Qed.

Lemma table_rows_edges cs u v :
  (In (u, v) (db (run cs)) \/ In (v, u) (db (run cs))) <->
  has_edge (G (run cs)) u v && bindable u && bindable v = true.
Proof.
  pose proof (Inv_run cs) as I. pose proof (Sync_run cs) as S.
  rewrite !andb_true_iff. split.
  - intros [H|H].
    + destruct (inv_db_bindable _ I _ _ H).
      now rewrite (inv_db_graph _ I _ _ H).
    + destruct (inv_db_bindable _ I _ _ H).
      now rewrite (has_edge_sym _ _ _ I), (inv_db_graph _ I _ _ H).
  - intros [[H Bu] Bv]. now apply (sync_cover _ S).
Qed.

(** X4.  In a session the table holds a row for an unordered pair exactly
    when the pair is an edge of the graph and both endpoints fit 64 bits,
    and it never holds two rows for the same unordered pair. *)
Theorem table_mirrors_graph (cs : list Command) (u v : Z) :
  let st := run cs in
  NoDup (map normalize (db st))
  /\ ((In (u, v) (db st) \/ In (v, u) (db st)) <->
      has_edge (G st) u v && bindable u && bindable v = true).
Proof.
  intros st. split.
  - exact (sync_once _ (Sync_run cs)).
  - apply table_rows_edges.
Qed.

(** X3.  Ending the process and starting again keeps exactly the edges
    whose endpoints fit 64 bits; the nodes after the restart are the
    endpoints of those edges, so isolated nodes are gone, and the counter
    is above every node. *)
Theorem restart_keeps_stored_edges (cs : list Command) (u v : Z) :
  let st := run cs in
  let st' := run (cs ++ [Restart]) in
  has_edge (G st') u v = has_edge (G st) u v && bindable u && bindable v
  /\ (In u (nodes (G st')) <->
      exists w, has_edge (G st) u w = true
                /\ bindable u = true /\ bindable w = true)
  /\ (In u (nodes (G st')) -> u < next_node_id st')
  /\ db st' = db st.
Proof.
  intros st st'. pose proof (Inv_run cs) as I. fold st in I.
  assert (E : st' = fst (startup (Some (db st)))).
  { subst st' st. now rewrite run_snoc. }
  pose proof (table_rows_edges cs) as T. fold st in T.
  split; [|split; [|split]].
  - rewrite E. change (G (fst (startup (Some (db st)))))
      with (load_rows empty (db st)).
    rewrite has_edge_load_rows. cbn [has_edge present adj_get _adj empty orb].
    destruct (existsb (matches u v) (db st)) eqn:M.
    + apply existsb_matches in M. symmetry.
      now apply (proj1 (T u v)).
    + destruct (has_edge (G st) u v && bindable u && bindable v) eqn:H;
        [|reflexivity].
      apply (proj2 (T u v)) in H. apply existsb_matches in H. congruence.
  - rewrite E. change (G (fst (startup (Some (db st)))))
      with (load_rows empty (db st)).
    rewrite Persistence.nodes_load_rows. cbn [nodes _adj empty map In].
    unfold endpoints. rewrite in_flat_map. split.
    + intros [[]|[[a b] [Hin Hu]]]. simpl in Hu.
      destruct (inv_db_bindable _ I _ _ Hin) as [Ba Bb].
      pose proof (inv_db_graph _ I _ _ Hin) as He.
      destruct Hu as [<-|[<-|[]]].
      * now exists b.
      * exists a. now rewrite (has_edge_sym _ _ _ I).
    + intros [w (H & Bu & Bw)]. right.
      assert (R : In (u, w) (db st) \/ In (w, u) (db st)).
      { apply (proj2 (T u w)). now rewrite H, Bu, Bw. }
      destruct R as [R|R]; eexists; (split; [exact R|]); simpl; auto.
  - rewrite E. apply NodeIds.startup_counter_above_nodes.
  - now rewrite E.
Qed.

End StoreSync.

(** ** What one edge changes: degrees and the edge count *)

Module Counting.

Import Nx EdgeStore GraphApp Props NxFacts NxWf Session.

Lemma sum_app l1 l2 : Nx.sum (l1 ++ l2) = Nx.sum l1 + Nx.sum l2.
Proof.
  induction l1 as [|x l1 IH]; simpl; [reflexivity|].
  unfold Nx.sum in *. simpl. rewrite IH. lia.
Qed.

(** Changing the entry of one node changes the degree sum by the change
    of that entry. *)
Lemma sum_update (f : Z * list Z -> Z * list Z) a n l :
  NoDup (map fst a) ->
  (forall e, fst e <> n -> f e = e) ->
  adj_get a n = Some l ->
  Nx.sum (map degree_of (map f a))
  = Nx.sum (map degree_of a) + degree_of (f (n, l)) - degree_of (n, l).
Proof.
  intros Hk Hf. induction a as [|[k l0] a IH]; simpl; [discriminate|].
  inversion Hk as [|? ? Hn Hk']; subst.
  destruct (Z.eqb_spec k n) as [->|Hne].
  - intros [= ->].
    assert (E : map f a = a).
    { rewrite <- (map_id a) at 2. apply map_ext_in. intros e He. apply Hf.
      intros <-. apply Hn. now apply in_map. }
    rewrite E. unfold Nx.sum. simpl. lia.
  - intros H. rewrite (Hf (k, l0)) by exact Hne.
    unfold Nx.sum in *. simpl. rewrite (IH Hk' H). lia.
Qed.

Lemma length_filter_neq (l : list Z) m :
  NoDup l -> In m l ->
  S (length (filter (fun x => negb (x =? m)) l)) = length l.
Proof.
  induction l as [|x l IH]; simpl; intros Hn Hin; [destruct Hin|].
  inversion Hn as [|? ? Hx Hn']; subst.
  destruct (Z.eqb_spec x m) as [->|Hne]; simpl.
  - f_equal. f_equal. apply EdgeCommands.filter_all.
    intros y Hy. apply negb_true_iff. apply Z.eqb_neq. intros ->. contradiction.
  - f_equal. apply IH; [exact Hn'|]. destruct Hin; [contradiction | assumption].
Qed.

Lemma filter_neq_snoc (l : list Z) m :
  ~ In m l -> filter (fun x => negb (x =? m)) (l ++ [m]) = l.
Proof.
  intros H. rewrite filter_app. simpl. rewrite Z.eqb_refl. simpl.
  rewrite app_nil_r. apply EdgeCommands.filter_all.
  intros y Hy. apply negb_true_iff. apply Z.eqb_neq. intros ->. contradiction.
Qed.

Lemma degree_add_node g n k : degree (Nx.add_node g n) k = degree g k.
Proof.
  unfold degree, Nx.add_node. destruct (has_node g n) eqn:E; [reflexivity|].
  cbn [_adj]. rewrite adj_get_app.
  destruct (adj_get (_adj g) k); [reflexivity|]. simpl.
  destruct (n =? k); reflexivity.
Qed.

Lemma sum_add_node g n :
  Nx.sum (map degree_of (_adj (Nx.add_node g n))) = Nx.sum (map degree_of (_adj g)).
Proof.
  unfold Nx.add_node. destruct (has_node g n); [reflexivity|].
  cbn [_adj]. rewrite map_app, sum_app. unfold Nx.sum at 2. simpl. lia.
Qed.

Section OneArc.

Variable a : adjacency.
Hypothesis Hk : NoDup (map fst a).
Variables u v : Z.
Hypothesis Huv : u <> v.

(** [_adj[u][v] = ...] for a new neighbour of an existing node. *)
Lemma degree_set_nbr k :
  In u (map fst a) -> present a u v = false ->
  degree (mkGraph (set_nbr a u v)) k
  = degree (mkGraph a) k + (if k =? u then 1 else 0).
Proof.
  intros Hu Hp. unfold degree. cbn [_adj]. rewrite adj_get_set_nbr.
  destruct (adj_get a k) as [l|] eqn:E; simpl.
  - destruct (Z.eqb_spec k u) as [->|Hne]; [|lia].
    unfold present in Hp. rewrite E in Hp. rewrite Hp.
    unfold degree_of. cbn [fst snd]. rewrite length_app, mem_app. simpl.
    destruct (Z.eqb_spec u v); [contradiction|]. rewrite orb_false_r.
    destruct (mem u l); lia.
  - destruct (Z.eqb_spec k u) as [->|Hne]; [|lia].
    apply adj_get_None in E. contradiction.
Qed.

Lemma sum_set_nbr :
  In u (map fst a) -> present a u v = false ->
  Nx.sum (map degree_of (set_nbr a u v)) = Nx.sum (map degree_of a) + 1.
Proof.
  intros Hu Hp. destruct (has_key_adj_get a u Hu) as [l E].
  unfold set_nbr. rewrite (sum_update _ a u l Hk); [|
    intros e He; destruct (Z.eqb_spec (fst e) u); [contradiction | reflexivity] |
    exact E].
  cbn [fst snd]. rewrite Z.eqb_refl.
  unfold present in Hp. rewrite E in Hp. rewrite Hp.
  unfold degree_of. cbn [fst snd]. rewrite length_app, mem_app. simpl.
  destruct (Z.eqb_spec u v); [contradiction|]. rewrite orb_false_r.
  destruct (mem u l); lia.
Qed.

(** [del self._adj[u][v]] for a neighbour that is there. *)
Lemma degree_del_nbr k :
  (forall n l, In (n, l) a -> NoDup l) -> present a u v = true ->
  degree (mkGraph (del_nbr a u v)) k
  = degree (mkGraph a) k - (if k =? u then 1 else 0).
Proof.
  intros Hl Hp. unfold degree. cbn [_adj]. rewrite adj_get_del_nbr.
  destruct (adj_get a k) as [l|] eqn:E; simpl.
  - destruct (Z.eqb_spec k u) as [->|Hne]; [|lia].
    unfold present in Hp. rewrite E in Hp. apply mem_In in Hp.
    pose proof (Hl _ _ (adj_get_Some_In _ _ _ E)) as Hn.
    pose proof (length_filter_neq l v Hn Hp) as Hlen.
    unfold degree_of. cbn [fst snd]. rewrite mem_filter_neq.
    destruct (Z.eqb_spec u v); [contradiction|]. rewrite andb_true_r.
    destruct (mem u l); lia.
  - destruct (Z.eqb_spec k u) as [->|Hne]; [|lia].
    unfold present in Hp. rewrite E in Hp. discriminate.
Qed.

Lemma sum_del_nbr :
  (forall n l, In (n, l) a -> NoDup l) -> present a u v = true ->
  Nx.sum (map degree_of (del_nbr a u v)) = Nx.sum (map degree_of a) - 1.
Proof.
  intros Hl Hp. unfold present in Hp.
  destruct (adj_get a u) as [l|] eqn:E; [|discriminate].
  apply mem_In in Hp.
  pose proof (Hl _ _ (adj_get_Some_In _ _ _ E)) as Hn.
  pose proof (length_filter_neq l v Hn Hp) as Hlen.
  unfold del_nbr. rewrite (sum_update _ a u l Hk); [|
    intros e He; destruct (Z.eqb_spec (fst e) u); [contradiction | reflexivity] |
    exact E].
  cbn [fst snd]. rewrite Z.eqb_refl.
  unfold degree_of. cbn [fst snd]. rewrite mem_filter_neq.
  destruct (Z.eqb_spec u v); [contradiction|]. rewrite andb_true_r.
  destruct (mem u l); lia.
Qed.

End OneArc.

(** [G.add_edge(u, v)] for a new edge between different nodes. *)
Lemma add_edge_counts g u v :
  wf (_adj g) -> u <> v -> has_edge g u v = false ->
  (forall k, degree (Nx.add_edge g u v) k
             = degree g k + (if k =? u then 1 else 0)
                          + (if k =? v then 1 else 0))
  /\ Nx.sum (map degree_of (_adj (Nx.add_edge g u v)))
     = Nx.sum (map degree_of (_adj g)) + 2.
Proof.
  intros Hw Hne He.
  set (g2 := Nx.add_node (Nx.add_node g u) v).
  assert (Hw2 : wf (_adj g2)) by (apply wf_add_node, wf_add_node, Hw).
  destruct Hw2 as (Hk2 & Hl2 & Hs2).
  assert (Hu : In u (map fst (_adj g2))).
  { apply In_nodes_add_node. left. apply In_nodes_add_node. now right. }
  assert (Hv : In v (map fst (_adj g2))).
  { apply In_nodes_add_node. now right. }
  assert (P1 : present (_adj g2) u v = false).
  { unfold g2. now rewrite !present_add_node. }
  assert (Hk3 : NoDup (map fst (set_nbr (_adj g2) u v)))
    by now rewrite keys_set_nbr.
  assert (Hv3 : In v (map fst (set_nbr (_adj g2) u v)))
    by now rewrite keys_set_nbr.
  assert (P2 : present (set_nbr (_adj g2) u v) v u = false).
  { rewrite present_set_nbr, <- Hs2, P1.
    destruct (Z.eqb_spec v u); [congruence | reflexivity]. }
  assert (Hne' : v <> u) by congruence.
  unfold Nx.add_edge. fold g2. cbn [_adj]. split.
  - intros k.
    rewrite (degree_set_nbr _ v u Hne' k Hv3 P2).
    rewrite (degree_set_nbr _ u v Hne k Hu P1).
    replace (degree {| _adj := _adj g2 |} k) with (degree g2 k)
      by (now destruct g2).
    unfold g2. rewrite !degree_add_node. lia.
  - rewrite (sum_set_nbr _ Hk3 v u Hne' Hv3 P2).
    rewrite (sum_set_nbr _ Hk2 u v Hne Hu P1).
    unfold g2. rewrite !sum_add_node. lia.
Qed.

(** [G.remove_edge(u, v)] for an edge between different nodes. *)
Lemma remove_edge_counts g u v :
  wf (_adj g) -> u <> v -> has_edge g u v = true ->
  let g' := mkGraph (del_nbr (del_nbr (_adj g) u v) v u) in
  Nx.remove_edge g u v = Removed g'
  /\ (forall k, degree g' k
                = degree g k - (if k =? u then 1 else 0)
                             - (if k =? v then 1 else 0))
  /\ Nx.sum (map degree_of (_adj g')) = Nx.sum (map degree_of (_adj g)) - 2.
Proof.
  intros (Hk & Hl & Hs) Hne He g'. unfold has_edge in He.
  assert (Hne' : v <> u) by congruence.
  assert (Hk1 : NoDup (map fst (del_nbr (_adj g) u v)))
    by now rewrite keys_del_nbr.
  assert (Hl1 : forall n l, In (n, l) (del_nbr (_adj g) u v) -> NoDup l)
    by now apply lists_del_nbr.
  assert (P : present (del_nbr (_adj g) u v) v u = true).
  { rewrite present_del_nbr, <- Hs, He.
    destruct (Z.eqb_spec v u); [congruence | reflexivity]. }
  split; [|split].
  - unfold Nx.remove_edge. rewrite He.
    destruct (Z.eqb_spec u v); [contradiction|]. now rewrite P.
  - intros k. subst g'.
    rewrite (degree_del_nbr _ v u Hne' k Hl1 P).
    rewrite (degree_del_nbr _ u v Hne k Hl He).
    now destruct g.
  - subst g'. cbn [_adj].
    rewrite (sum_del_nbr _ Hk1 v u Hne' Hl1 P).
    rewrite (sum_del_nbr _ Hk u v Hne Hl He). lia.
Qed.

Lemma number_of_edges_shift g g' d :
  Nx.sum (map degree_of (_adj g')) = Nx.sum (map degree_of (_adj g)) + 2 * d ->
  number_of_edges g' = number_of_edges g + d.
Proof.
  intros H. unfold number_of_edges. rewrite !degree_view_degrees, H.
  rewrite (Z.mul_comm 2 d). apply Z.div_add. discriminate.
Qed.

Lemma finalize_graph st u v :
  has_edge (G st) u v = false ->
  G (fst (_finalize_add_edge st u v)) = Nx.add_edge (G st) u v.
Proof.
  intros H. unfold _finalize_add_edge. rewrite H. cbn [negb].
  now destruct (save_edge (db st) u v).
Qed.

(** X7.  In a session started on any table, the commit of a pair of
    different nodes that is not an edge yet raises the degree of each of
    the two endpoints by one, leaves every other degree as it is, and
    raises the edge count by one, both as [number_of_edges] computes it
    and as the length of the edge view; both endpoints are nodes
    afterwards. *)
Theorem commit_adds_one_edge
  (file : option table) (cs : list Command) (u v : Z) :
  let st := run_from (fst (startup file)) cs in
  let st' := fst (_finalize_add_edge st u v) in
  u <> v -> has_edge (G st) u v = false ->
  (forall k, degree (G st') k
             = degree (G st) k + (if k =? u then 1 else 0)
                               + (if k =? v then 1 else 0))
  /\ number_of_edges (G st') = number_of_edges (G st) + 1
  /\ length (Nx.edges (G st')) = S (length (Nx.edges (G st)))
  /\ has_edge (G st') u v = true /\ has_edge (G st') v u = true
  /\ In u (nodes (G st')) /\ In v (nodes (G st')).
Proof.
  intros st st' Hne He.
  assert (Hw : wf (_adj (G st))) by apply wf_run_from, wf_startup.
  assert (Eg : G st' = Nx.add_edge (G st) u v) by now apply finalize_graph.
  destruct (add_edge_counts _ u v Hw Hne He) as [Hd Hsum].
  assert (N : number_of_edges (G st') = number_of_edges (G st) + 1).
  { rewrite Eg. apply number_of_edges_shift. rewrite Hsum. lia. }
  rewrite Eg. split; [exact Hd|]. rewrite <- Eg.
  split; [exact N|]. split.
  { assert (Hw' : wf (_adj (G st'))) by (rewrite Eg; now apply wf_add_edge).
    rewrite (number_of_edges_wf _ Hw), (number_of_edges_wf _ Hw') in N. lia. }
  rewrite Eg, !has_edge_add_edge, !Z.eqb_refl, !nodes_add_edge. cbn.
  rewrite !orb_true_r. auto 6.
Qed.

Lemma commit_adds_one_edge_witness :
  number_of_edges (G (fst (_finalize_add_edge (run (connect 1 2)) 2 3))) = 2
  /\ degree (G (fst (_finalize_add_edge (run (connect 1 2)) 2 3))) 2 = 2.
Proof.
  assert (N : 2 <> 3) by discriminate.
  destruct (commit_adds_one_edge None (connect 1 2) 2 3 N eq_refl)
    as (Hd & Hn & _).
  split; [exact Hn | exact (Hd 2)].
Defined.

(** X5.  In a session, removing a pair that is an edge removes that edge
    in both directions and nothing else: the nodes stay (also when they
    become isolated), the two endpoints lose one degree each, the edge
    count drops by one, the table keeps exactly its rows that do not match
    the pair, and the counter is untouched. *)
Theorem removal_removes_one_edge (cs : list Command) (u v : Z) :
  let st := run cs in
  let st' := fst (remove_selected_edge st (Picked u v)) in
  has_edge (G st) u v = true ->
  nodes (G st') = nodes (G st)
  /\ (forall k x, has_edge (G st') k x
                  = has_edge (G st) k x && negb (matches u v (k, x)))
  /\ (forall k, degree (G st') k
                = degree (G st) k - (if k =? u then 1 else 0)
                                  - (if k =? v then 1 else 0))
  /\ number_of_edges (G st') = number_of_edges (G st) - 1
  /\ (forall r, In r (db st') <-> In r (db st) /\ matches u v r = false)
  /\ next_node_id st' = next_node_id st
  /\ animating st' = animating st.
Proof.
  intros st st' He. pose proof (Inv_run cs) as I. fold st in I.
  pose proof (inv_wf _ I) as Hw.
  assert (Hne : u <> v).
  { intros ->. unfold has_edge in He. now rewrite (inv_loop_free _ I) in He. }
  destruct (remove_edge_counts _ u v Hw Hne He) as (Er & Hd & Hsum).
  destruct (remove_edge_wf _ u v Hw He) as [g' (Er' & _ & Hn & Hh)].
  rewrite Er in Er'. injection Er' as <-.
  set (g' := mkGraph (del_nbr (del_nbr (_adj (G st)) u v) v u)) in *.
  assert (Es : st' = match delete_edge (db st) u v with
                     | Some t => mkState g' (next_node_id st) t (animating st)
                     | None => with_G st g'
                     end).
  { subst st'. unfold remove_selected_edge, remove_pair. rewrite He, Er.
    now destruct (delete_edge (db st) u v). }
  assert (Eg : G st' = g').
  { rewrite Es. now destruct (delete_edge (db st) u v). }
  rewrite Eg. split; [exact Hn|]. split.
  { intros k x. rewrite Hh. unfold matches. cbn [fst snd].
    rewrite negb_orb. now rewrite andb_assoc. }
  split; [exact Hd|]. split.
  { apply number_of_edges_shift with (d := -1). rewrite Hsum. lia. }
  rewrite Es. unfold delete_edge.
  destruct (bindable u && bindable v) eqn:B; cbn.
  - split; [|split; reflexivity].
    intros r. rewrite filter_In, negb_true_iff. tauto.
  - split; [|split; reflexivity].
    intros [a b]. split; [|tauto]. intros Hr. split; [exact Hr|].
    destruct (matches u v (a, b)) eqn:M; [|reflexivity].
    destruct (inv_db_bindable _ I _ _ Hr) as [Ba Bb].
    apply matches_true in M as [[= -> ->]|[= -> ->]];
      rewrite Ba, Bb in B; discriminate.
Qed.

Lemma removal_removes_one_edge_witness :
  number_of_edges
    (G (fst (remove_selected_edge (run (connect 1 2 ++ connect 2 3))
                                  (Picked 2 1)))) = 1
  /\ nodes (G (fst (remove_selected_edge (run (connect 1 2 ++ connect 2 3))
                                         (Picked 2 1)))) = [1; 2; 3].
Proof.
  destruct (removal_removes_one_edge (connect 1 2 ++ connect 2 3) 2 1 eq_refl)
    as (Hn & _ & _ & He & _).
  split; [exact He | exact Hn].
Defined.

Lemma arcs_round_trip a u v :
  NoDup (map fst a) -> u <> v ->
  present a u v = false -> present a v u = false ->
  del_nbr (del_nbr (set_nbr (set_nbr a u v) v u) u v) v u = a.
Proof.
  intros Hk Hne P1 P2. unfold del_nbr, set_nbr. rewrite !map_map.
  rewrite <- (map_id a) at 2. apply map_ext_in. intros [k l] Hin.
  pose proof (In_adj_get _ _ _ Hk Hin) as E. cbn [fst snd].
  destruct (Z.eqb_spec k u) as [->|Hu].
  - unfold present in P1. rewrite E in P1. rewrite P1. cbn [fst snd].
    destruct (Z.eqb_spec u v) as [|_]; [contradiction|]. cbn [fst snd].
    rewrite Z.eqb_refl. cbn [fst snd].
    destruct (Z.eqb_spec u v) as [|_]; [contradiction|].
    rewrite filter_neq_snoc; [reflexivity | now apply mem_false].
  - cbn [fst snd]. destruct (Z.eqb_spec k v) as [->|Hv].
    + unfold present in P2. rewrite E in P2. rewrite P2. cbn [fst snd].
      destruct (Z.eqb_spec v u) as [|_]; [congruence|]. cbn [fst snd].
      rewrite Z.eqb_refl.
      rewrite filter_neq_snoc; [reflexivity | now apply mem_false].
    + cbn [fst snd]. destruct (Z.eqb_spec k u); [contradiction|].
      cbn [fst snd]. now destruct (Z.eqb_spec k v).
Qed.

(** X6.  In a session, connecting two existing, different nodes that are
    not adjacent (with ids that fit 64 bits) and then removing that edge
    gives back the state exactly: same graph, in the same dict order, same
    table, same counter. *)
Theorem add_then_remove_restores (cs : list Command) (u v : Z) :
  let st := run cs in
  u <> v -> In u (nodes (G st)) -> In v (nodes (G st)) ->
  has_edge (G st) u v = false ->
  bindable u = true -> bindable v = true ->
  fst (remove_selected_edge (fst (_finalize_add_edge st u v)) (Picked u v))
  = st.
Proof.
  intros st Hne Hu Hv He Bu Bv. pose proof (Inv_run cs) as I. fold st in I.
  pose proof (inv_wf _ I) as Hw. pose proof Hw as (Hk & _ & Hs).
  assert (E1 : fst (_finalize_add_edge st u v)
               = mkState (Nx.add_edge (G st) u v) (next_node_id st)
                         (db st ++ [(u, v)]) (animating st)).
  { unfold _finalize_add_edge, save_edge. now rewrite He, Bu, Bv. }
  rewrite E1. unfold remove_selected_edge, remove_pair. cbn [G db next_node_id animating].
  assert (A : has_edge (Nx.add_edge (G st) u v) u v = true).
  { rewrite has_edge_add_edge, !Z.eqb_refl. cbn. now rewrite orb_true_r. }
  rewrite A.
  destruct (remove_edge_counts _ u v (wf_add_edge _ u v Hw) Hne A) as (Er & _).
  rewrite Er. unfold delete_edge. rewrite Bu, Bv. cbn [andb fst].
  assert (Ea : _adj (Nx.add_edge (G st) u v)
               = set_nbr (set_nbr (_adj (G st)) u v) v u).
  { unfold Nx.add_edge, Nx.add_node, has_node.
    rewrite (proj2 (mem_In u _) Hu). rewrite (proj2 (mem_In v _) Hv).
    reflexivity. }
  rewrite Ea, arcs_round_trip; try assumption.
  - rewrite filter_app. cbn [filter].
    assert (M : matches u v (u, v) = true) by (apply matches_true; auto).
    rewrite M. cbn. rewrite app_nil_r.
    pose proof (EdgeCommands.absent_pair_has_no_row cs u v He) as F.
    fold st in F. rewrite F. destruct st as [[a] n t p]. reflexivity.
  - unfold has_edge in He. now rewrite <- Hs.
Qed.

Lemma add_then_remove_restores_witness :
  fst (remove_selected_edge
         (fst (_finalize_add_edge (run (connect 1 2 ++ connect 2 3)) 1 3))
         (Picked 1 3))
  = run (connect 1 2 ++ connect 2 3).
Proof.
  apply (add_then_remove_restores (connect 1 2 ++ connect 2 3) 1 3).
  - discriminate.
  - simpl. auto.
  - simpl. auto.
  - reflexivity.
  - reflexivity.
  - reflexivity.
Defined.

End Counting.

(** ** Nodes: display, colour scale, growth, ids *)

Module NodesView.

Import Nx EdgeStore GraphApp Props NxFacts NxWf Session.

Lemma insert_node_perm x l : Permutation (insert_node x l) (x :: l).
Proof.
  induction l as [|y l IH]; simpl; [reflexivity|].
  destruct (y <? x); [|reflexivity]. rewrite IH. apply perm_swap.
Qed.

Lemma node_list_perm g : Permutation (node_list g) (nodes g).
Proof.
  unfold node_list. induction (nodes g) as [|x l IH]; simpl; [reflexivity|].
  rewrite insert_node_perm. now constructor.
Qed.

Lemma insert_node_Sorted x l : Sorted Z.le l -> Sorted Z.le (insert_node x l).
Proof.
  induction l as [|y l IH]; simpl; intros H.
  - repeat constructor.
  - destruct (Z.ltb_spec y x).
    + apply Sorted_inv in H as [Hs Hh]. constructor; [now apply IH|].
      destruct l as [|z l]; simpl.
      * constructor. lia.
      * destruct (z <? x); constructor; [now inversion Hh | lia].
    + constructor; [exact H|]. constructor. lia.
Qed.

Lemma node_list_le g : StronglySorted Z.le (node_list g).
Proof.
  apply Sorted_StronglySorted; [intros x y z; lia|].
  unfold node_list. induction (nodes g) as [|x l IH]; simpl; [constructor|].
  now apply insert_node_Sorted.
Qed.

Lemma sorted_NoDup_strict l :
  StronglySorted Z.le l -> NoDup l -> StronglySorted Z.lt l.
Proof.
  induction l as [|x l IH]; intros Hs Hn; [constructor|].
  apply StronglySorted_inv in Hs as [Hs Hf].
  inversion Hn as [|? ? Hx Hn']; subst. constructor; [now apply IH|].
  rewrite Forall_forall in *. intros y Hy. specialize (Hf y Hy).
  assert (x <> y) by (intros ->; contradiction). lia.
Qed.

(** X1.  In a session started on any table, the node display lists the
    nodes of the graph in strictly ascending order, each node once; the
    node dict itself has no duplicates. *)
Theorem node_display_ascending (file : option table) (cs : list Command) :
  let g := G (run_from (fst (startup file)) cs) in
  StronglySorted Z.lt (node_list g)
  /\ Permutation (node_list g) (nodes g)
  /\ NoDup (nodes g)
  /\ (forall n, In n (node_list g) <-> has_node g n = true).
Proof.
  intros g.
  assert (Hw : wf (_adj g)) by apply wf_run_from, wf_startup.
  destruct Hw as (Hk & _).
  split; [|split; [apply node_list_perm | split; [exact Hk|]]].
  - apply sorted_NoDup_strict; [apply node_list_le|].
    apply (Permutation_NoDup (l := nodes g)); [|exact Hk].
    symmetry. apply node_list_perm.
  - intros n. unfold has_node. rewrite mem_In. split; apply Permutation_in;
      [apply node_list_perm | symmetry; apply node_list_perm].
Qed.

Lemma degree_nonneg g n : 0 <= degree g n.
Proof.
  unfold degree. destruct (adj_get (_adj g) n); [|lia].
  unfold degree_of. cbn [fst snd]. destruct (mem n l); lia.
Qed.

Lemma max_of_In x l : In (max_of x l) (x :: l).
Proof.
  induction l as [|y l IH]; simpl; [now left|].
  destruct (Z.max_spec y (max_of x l)) as [[_ E]|[_ E]]; rewrite E.
  - simpl in IH. tauto.
  - right. now left.
Qed.

Lemma colour_scale_bounds g :
  In (maxdeg g) (deg_vals g) \/ Forall (fun d => d = 0) (deg_vals g).
Proof.
  unfold maxdeg. destruct (deg_vals g) as [|d ds] eqn:E; [now right|].
  destruct (Z.gtb_spec (max_of d ds) 0) as [Hgt|Hle].
  - left. apply max_of_In.
  - right. destruct (NodeIds.max_of_ge d ds) as [H1 H2].
    assert (Hpos : Forall (fun x => 0 <= x) (d :: ds)).
    { rewrite <- E. unfold deg_vals. rewrite Forall_forall. intros x Hx.
      apply in_map_iff in Hx as [n [<- _]]. apply degree_nonneg. }
    rewrite Forall_forall in *. intros x Hx. pose proof (Hpos x Hx).
    destruct Hx as [<-|Hx]; [lia | specialize (H2 x Hx); lia].
Qed.

(** X2.  For every graph the colour scale of [refresh_graph] is defined:
    [maxdeg] is at least 1, so [d / maxdeg] never divides by zero, every
    degree shown lies between 0 and [maxdeg], so the colour argument lies
    between 0 and 1, there is one degree per node, and [maxdeg] is the
    degree of some node unless all degrees are 0. *)
Theorem colour_scale_defined (g : Graph) :
  1 <= maxdeg g
  /\ Forall (fun d => 0 <= d <= maxdeg g) (deg_vals g)
  /\ length (deg_vals g) = length (nodes g)
  /\ (In (maxdeg g) (deg_vals g) \/ Forall (fun d => d = 0) (deg_vals g)).
Proof.
  assert (Hpos : Forall (fun d => 0 <= d) (deg_vals g)).
  { unfold deg_vals. rewrite Forall_forall. intros d Hd.
    apply in_map_iff in Hd as [n [<- _]]. apply degree_nonneg. }
  assert (Hlen : length (deg_vals g) = length (nodes g)).
  { unfold deg_vals. rewrite length_map.
    apply Permutation_length, node_list_perm. }
  unfold maxdeg. destruct (deg_vals g) as [|d ds] eqn:E.
  - repeat split; auto; lia.
  - destruct (NodeIds.max_of_ge d ds) as [H1 H2].
    pose proof (max_of_In d ds) as Hin.
    destruct (Z.gtb_spec (max_of d ds) 0) as [Hgt|Hle].
    + split; [lia|]. split; [|split; [exact Hlen | now left]].
      rewrite Forall_forall in *. intros x Hx. split; [now apply Hpos|].
      destruct Hx as [<-|Hx]; [lia | now apply H2].
    + assert (Hz : Forall (fun x => x = 0) (d :: ds)).
      { rewrite Forall_forall in *. intros x Hx.
        pose proof (Hpos x Hx).
        destruct Hx as [<-|Hx]; [lia | specialize (H2 x Hx); lia]. }
      split; [lia|]. split; [|split; [exact Hlen | now right]].
      rewrite Forall_forall in *. intros x Hx. rewrite (Hz x Hx). lia.
Qed.

(** X8.  In a session no node is adjacent to itself or twice to the same
    node, so every degree shown is below the number of nodes. *)
Theorem degree_below_node_count (cs : list Command) :
  let g := G (run cs) in
  Forall (fun d => 0 <= d < Z.of_nat (length (nodes g))) (deg_vals g)
  /\ maxdeg g <= Z.max 1 (Z.of_nat (length (nodes g)) - 1).
Proof.
  intros g. pose proof (Inv_run cs) as I. fold g in I.
  pose proof (inv_wf _ I) as Hw. pose proof Hw as (Hk & Hl & _).
  assert (B : forall n, In n (nodes g) ->
                        0 <= degree g n < Z.of_nat (length (nodes g))).
  { intros n Hn. split; [apply degree_nonneg|].
    destruct (has_key_adj_get _ _ Hn) as [l E].
    unfold degree. rewrite E. unfold degree_of. cbn [fst snd].
    pose proof (adj_get_Some_In _ _ _ E) as Hin.
    assert (M : mem n l = false).
    { rewrite <- (Handshake.entry_present _ Hw n l n Hin).
      apply (inv_loop_free _ I). }
    rewrite M.
    assert (Hle : (length (n :: l) <= length (nodes g))%nat).
    { apply NoDup_incl_length.
      - constructor; [now apply mem_false | exact (Hl _ _ Hin)].
      - intros x [<-|Hx]; [exact Hn|].
        exact (Handshake.nbr_is_key _ Hw n l x Hin Hx). }
    simpl in Hle. lia. }
  assert (F : Forall (fun d => 0 <= d < Z.of_nat (length (nodes g)))
                     (deg_vals g)).
  { unfold deg_vals. rewrite Forall_forall. intros d Hd.
    apply in_map_iff in Hd as [n [<- Hn]]. apply B.
    apply (Permutation_in _ (node_list_perm g) Hn). }
  split; [exact F|].
  destruct (colour_scale_bounds g) as [Hin|Hz].
  - rewrite Forall_forall in F. specialize (F _ Hin). lia.
  - unfold maxdeg. destruct (deg_vals g) as [|d ds]; [lia|].
    destruct (Z.gtb_spec (max_of d ds) 0) as [Hgt|Hle]; [|lia].
    rewrite Forall_forall in Hz.
    pose proof (Hz _ (max_of_In d ds)). lia.
Qed.

Lemma nodes_remove_edge g u v :
  nodes (match Nx.remove_edge g u v with
         | Removed g' => g'
         | NetworkXError g' => g'
         end) = nodes g.
Proof.
  unfold Nx.remove_edge, nodes. destruct (present (_adj g) u v); [|reflexivity].
  destruct (u =? v); cbn [_adj]; [apply keys_del_nbr|].
  destruct (present (del_nbr (_adj g) u v) v u); cbn [_adj];
    now rewrite ?keys_del_nbr.
Qed.

Lemma nodes_add_edge_grow g u v :
  exists l, nodes (Nx.add_edge g u v) = nodes g ++ l.
Proof.
  unfold Nx.add_edge, nodes. cbn [_adj]. rewrite !keys_set_nbr.
  change (exists l, nodes (Nx.add_node (Nx.add_node g u) v) = nodes g ++ l).
  rewrite !nodes_add_node.
  destruct (has_node (Nx.add_node g u) v), (has_node g u).
  - exists []. now rewrite app_nil_r.
  - now exists [u].
  - now exists [v].
  - exists [u; v]. now rewrite <- app_assoc.
Qed.

Lemma nodes_remove_pair st u v :
  nodes (G (fst (remove_pair st u v))) = nodes (G st).
Proof.
  unfold remove_pair. destruct (has_edge (G st) u v).
  - pose proof (nodes_remove_edge (G st) u v) as H.
    destruct (Nx.remove_edge (G st) u v); [|exact H].
    now destruct (delete_edge (db st) u v).
  - now destruct (delete_edge (db st) u v).
Qed.

Lemma nodes_exec_grow st c :
  clears c = false ->
  exists l, nodes (G (fst (exec st c))) = nodes (G st) ++ l.
Proof.
  assert (Same : forall g : Graph, exists l, nodes g = nodes g ++ l).
  { intros g. exists []. now rewrite app_nil_r. }
  destruct c; cbn [exec fst clears]; intros Hc; try discriminate;
    try apply Same.
  - cbn [add_node fst G]. rewrite nodes_add_node.
    destruct (has_node (G st) (next_node_id st)); [apply Same | eauto].
  - unfold add_edge_from_select.
    destruct src as [u|], tgt as [v|]; try apply Same.
    destruct (u =? v); [apply Same|].
    destruct (has_edge (G st) u v); apply Same.
  - unfold animation_done.
    destruct (nth_error (animating st) i) as [[u v]|]; [|apply Same].
    unfold _finalize_add_edge. cbn [G db].
    destruct (has_edge (G st) u v); cbn [negb]; [apply Same|].
    destruct (save_edge (db st) u v); apply nodes_add_edge_grow.
  - unfold add_edge. destruct (length (nodes (G st)) <? 2)%nat; [apply Same|].
    destruct (nth_error (nodes (G st)) i) as [u|]; [|apply Same].
    destruct (nth_error (nodes (G st)) j) as [v|]; [|apply Same].
    destruct (i =? j)%nat; [apply Same|].
    destruct (has_edge (G st) u v); apply Same.
  - destruct sel; try apply Same. cbn [remove_selected_edge].
    rewrite nodes_remove_pair. apply Same.
  - unfold remove_edge. destruct (number_of_edges (G st) =? 0); [apply Same|].
    destruct (nth_error (edges (G st)) i) as [[u v]|]; [|apply Same].
    pose proof (nodes_remove_edge (G st) u v) as H.
    destruct (Nx.remove_edge (G st) u v) as [g'|g'].
    + destruct (delete_edge (db st) u v); cbn [fst G with_G];
        rewrite H; apply Same.
    + cbn [fst G with_G]. rewrite H. apply Same.
Qed.

(** X9.  Between two resets or restarts nodes are only added, at the end
    of the node dict: after any sequence of other commands, from any
    state, the node dict starts with the nodes it had, in their order.
    Removing edges never removes a node. *)
Theorem nodes_only_grow (st : State) (cs : list Command) :
  forallb (fun c => negb (clears c)) cs = true ->
  exists l, nodes (G (run_from st cs)) = nodes (G st) ++ l.
Proof.
  revert st. induction cs as [|c cs IH]; intros st H.
  - exists []. cbn. now rewrite app_nil_r.
  - cbn in H. apply andb_true_iff in H as [Hc H]. apply negb_true_iff in Hc.
    destruct (nodes_exec_grow st c Hc) as [l1 E1].
    destruct (IH (fst (exec st c)) H) as [l2 E2].
    exists (l1 ++ l2).
    change (run_from st (c :: cs)) with (run_from (fst (exec st c)) cs).
    now rewrite E2, E1, app_assoc.
Qed.

Lemma nodes_only_grow_witness :
  exists l,
    nodes (G (run_from (run (connect 1 2))
                       [RemoveSelectedEdge (Picked 1 2); AddNode]))
    = nodes (G (run (connect 1 2))) ++ l.
Proof.
  apply (nodes_only_grow (run (connect 1 2))
           [RemoveSelectedEdge (Picked 1 2); AddNode]).
  reflexivity.
Defined.



End NodesView.


(** ** The random variants of adding and removing an edge *)

Module RandomCommands.

Import Nx EdgeStore GraphApp Props NxFacts NxWf Session.

(** X13.  In a session started on any table, the random [add_edge] never
    touches graph, table or counter, and the only pair it ever hands to
    the animation is a pair of two different nodes of the graph that are
    not adjacent; with fewer than two nodes it only reports the error. *)
Theorem random_add_edge_queues_valid_pair
  (file : option table) (cs : list Command) (i j : nat) :
  let st := run_from (fst (startup file)) cs in
  let st' := fst (add_edge st i j) in
  G st' = G st /\ db st' = db st /\ next_node_id st' = next_node_id st
  /\ (animating st' = animating st
      \/ exists u v,
           animating st' = animating st ++ [(u, v)]
           /\ u <> v /\ In u (nodes (G st)) /\ In v (nodes (G st))
           /\ has_edge (G st) u v = false /\ has_edge (G st) v u = false)
  /\ ((length (nodes (G st)) < 2)%nat ->
      add_edge st i j = (st, [ErrNeedTwoNodes])).
Proof.
  intros st st'.
  assert (Hw : wf (_adj (G st))) by apply wf_run_from, wf_startup.
  destruct Hw as (Hk & _ & Hs).
  subst st'. unfold add_edge.
  destruct (Nat.ltb_spec (length (nodes (G st))) 2) as [Hlt|Hge].
  - cbn. repeat split; auto.
  - destruct (nth_error (nodes (G st)) i) as [u|] eqn:Ei;
      [|cbn; repeat split; auto; lia].
    destruct (nth_error (nodes (G st)) j) as [v|] eqn:Ej;
      [|cbn; repeat split; auto; lia].
    destruct (Nat.eqb_spec i j) as [|Hij]; [cbn; repeat split; auto; lia|].
    destruct (has_edge (G st) u v) eqn:He; [cbn; repeat split; auto; lia|].
    cbn. repeat split; auto; [|lia]. right. exists u, v.
    repeat split; auto.
    + intros ->. apply Hij.
      apply (proj1 (NoDup_nth_error (nodes (G st))) Hk);
        [apply nth_error_Some|]; congruence.
    + eapply nth_error_In; eauto.
    + eapply nth_error_In; eauto.
    + unfold has_edge in *. now rewrite <- Hs.
Qed.

End RandomCommands.

(** ** Further properties of the session commands *)

Module Behaviour.

Import Nx EdgeStore GraphApp Props NxFacts NxWf Session.

(** X10.  In a session started on any table the number of odd-degree
    nodes is even, so "No Euler Path/Circuit" is only ever logged with an
    even count of at least four. *)
Theorem no_euler_count_even
  (file : option table) (cs : list Command) (k : nat) :
  let st := run_from (fst (startup file)) cs in
  Nat.even (length (odd_degree_nodes (G st))) = true
  /\ (fst (euler_path_check st) = NoEuler k ->
      k = length (odd_degree_nodes (G st))
      /\ Nat.even k = true /\ (4 <= k)%nat).
Proof.
  intros st.
  assert (Hw : wf (_adj (G st))) by apply wf_run_from, wf_startup.
  assert (Ev : Nat.even (length (odd_degree_nodes (G st))) = true).
  { rewrite EulerCheck.odd_degree_nodes_length, <- EulerCheck.sum_parity.
    destruct (Verification.verify_wf st Hw) as (E & _).
    rewrite E, Z.even_mul. reflexivity. }
  split; [exact Ev|]. unfold euler_path_check.
  destruct (length (odd_degree_nodes (G st))) as [|[|[|[|n]]]] eqn:L;
    cbn; try discriminate.
  intros [= <-]. repeat split; [exact Ev | lia].
Qed.

Lemma add_edge_empty u v :
  u <> v -> Nx.add_edge empty u v = mkGraph [(u, [v]); (v, [u])].
Proof.
  intros H. assert (E1 : (v =? u) = false) by (apply Z.eqb_neq; congruence).
  assert (E2 : (u =? v) = false) by now apply Z.eqb_neq.
  unfold Nx.add_edge, Nx.add_node, has_node, nodes, mem, set_nbr.
  cbn. rewrite ?E1, ?E2, ?Z.eqb_refl. cbn.
  rewrite ?E1, ?E2, ?Z.eqb_refl. cbn.
  rewrite ?E1, ?E2, ?Z.eqb_refl. cbn.
  rewrite ?E1, ?E2, ?Z.eqb_refl. reflexivity.
Qed.

(** X12.  A reset does not stop a running animation.  When the animation
    of [(u, v)] ends after the reset, its commit puts the edge back: the
    graph then consists of the nodes [u], [v] and that edge, the table
    holds its row again (when the ids fit 64 bits), and the counter is 1,
    below the ids just created unless they are negative or zero. *)
Theorem reset_keeps_animations (cs : list Command) (i : nat) (u v : Z) :
  nth_error (animating (run cs)) i = Some (u, v) ->
  let st' := run (cs ++ [ResetGraph; AnimationDone i]) in
  u <> v
  /\ nodes (G st') = [u; v]
  /\ Nx.edges (G st') = [(u, v)]
  /\ db st' = (if bindable u && bindable v then [(u, v)] else [])
  /\ next_node_id st' = 1.
Proof.
  intros H st'. pose proof (Inv_run cs) as I.
  assert (Hne : u <> v).
  { apply (inv_animating _ I). now apply nth_error_In in H. }
  assert (E : st' = fst (animation_done (fst (reset_graph (run cs))) i)).
  { subst st'. unfold run, run_from. now rewrite fold_left_app. }
  split; [exact Hne|]. rewrite E.
  unfold animation_done, reset_graph. cbn [fst animating G db next_node_id].
  rewrite H. unfold _finalize_add_edge. cbn [G db next_node_id animating].
  change (has_edge (clear (G (run cs))) u v) with false. cbn [negb].
  change (clear (G (run cs))) with empty.
  rewrite (add_edge_empty u v Hne). unfold save_edge, delete_all.
  destruct (bindable u && bindable v); cbn [fst G db next_node_id with_G];
    (split; [reflexivity|]); (split; [|split; reflexivity]);
    unfold Nx.edges; cbn; rewrite Z.eqb_refl; reflexivity.
Qed.

Lemma reset_keeps_animations_witness :
  Nx.edges (G (run ([AddEdgeFromSelect (Some 1) (Some 2)]
                    ++ [ResetGraph; AnimationDone 0]))) = [(1, 2)]
  /\ db (run ([AddEdgeFromSelect (Some 1) (Some 2)]
              ++ [ResetGraph; AnimationDone 0])) = [(1, 2)].
Proof.
  destruct (reset_keeps_animations [AddEdgeFromSelect (Some 1) (Some 2)] 0 1 2
              eq_refl) as (_ & _ & He & Hd & _).
  split; [exact He | exact Hd].
Defined.

Lemma play_step fuel total iv i :
  play (S fuel) total iv i =
  match draw_step total i with
  | OnComplete => Some (1%nat, 0)
  | NextFrame i' =>
      match play fuel total iv i' with
      | Some (n, t) => Some (S n, t + iv)
      | None => None
      end
  end.
Proof. reflexivity. Qed.

Lemma play_completes iv total : forall n i,
  i + Z.of_nat (S n) = total ->
  play (S n) total iv i = Some (S n, Z.of_nat n * iv).
Proof.
  induction n as [|n IH]; intros i H; rewrite play_step; unfold draw_step.
  - destruct (Z.ltb_spec (i + 1) total); [lia | reflexivity].
  - destruct (Z.ltb_spec (i + 1) total); [|lia].
    rewrite (IH (i + 1)) by lia. do 2 f_equal. lia.
Qed.

Lemma play_pending iv total : forall fuel i,
  i + Z.of_nat fuel < total -> play fuel total iv i = None.
Proof.
  induction fuel as [|f IH]; intros i H; [reflexivity|].
  rewrite play_step. unfold draw_step.
  destruct (Z.ltb_spec (i + 1) total); [|lia].
  rewrite (IH (i + 1)) by lia. reflexivity.
Qed.

(** X15.  The frame chain of [animate_edge] ends: for every [duration]
    and [steps] it draws exactly [max(1, steps)] frames, spends
    [(total - 1) * interval] milliseconds in timers, and calls
    [on_complete] in the last frame and in no earlier one.  The interval
    is at least 1 ms, and the timers take no longer than [duration] when
    there are at most [duration] frames.  With the values the program
    uses (700 ms, 20 steps) these are 20 frames, 35 ms apart. *)
Theorem animation_frame_chain (duration steps : Z) :
  let total := frame_total steps in
  let interval := frame_interval duration steps in
  play (Z.to_nat total) total interval 0
  = Some (Z.to_nat total, (total - 1) * interval)
  /\ (forall fuel, (fuel < Z.to_nat total)%nat ->
        play fuel total interval 0 = None)
  /\ 1 <= total /\ 1 <= interval
  /\ (total <= duration -> (total - 1) * interval <= duration)
  /\ (1 < steps -> draw_step total 0 = NextFrame 1)
  /\ frame_total 20 = 20 /\ frame_interval 700 20 = 35.
Proof.
  intros total interval.
  assert (Ht : 1 <= total) by (unfold total, frame_total; lia).
  assert (Hi : 1 <= interval) by (unfold interval, frame_interval; lia).
  split.
  { destruct (Z.to_nat total) as [|n] eqn:E; [lia|].
    rewrite (play_completes interval total n 0) by lia.
    do 2 f_equal. lia. }
  split.
  { intros fuel Hf. apply play_pending. lia. }
  split; [exact Ht|]. split; [exact Hi|]. split.
  { intros Hd. unfold interval, frame_interval. fold total.
    assert (Hq : 1 <= duration / total).
    { apply Z.div_le_lower_bound; lia. }
    rewrite Z.max_r by lia.
    pose proof (Z.mul_div_le duration total ltac:(lia)). nia. }
  split.
  { intros Hs. unfold draw_step, total, frame_total.
    destruct (Z.ltb_spec (0 + 1) (Z.max 1 steps)); [reflexivity | lia]. }
  split; reflexivity.
Qed.

Lemma matches_swap u v r : matches v u r = matches u v r.
Proof. unfold matches. apply orb_comm. Qed.

(** X16.  When [delete_edge(u, v)] can bind its parameters, it deletes
    every row of the pair in either orientation, duplicates included, and
    keeps all other rows; it does the same as [delete_edge(v, u)], doing
    it again changes nothing, and it undoes a [save_edge] of the pair in
    either orientation on a table that had no row of the pair. *)
Theorem delete_edge_both_orientations (t t' : table) (u v : Z) :
  delete_edge t u v = Some t' ->
  (forall r, In r t' <-> In r t /\ r <> (u, v) /\ r <> (v, u))
  /\ delete_edge t v u = Some t'
  /\ delete_edge t' u v = Some t'
  /\ (t' = t ->
      exists s1 s2, save_edge t u v = Some s1 /\ delete_edge s1 v u = Some t
                    /\ save_edge t v u = Some s2 /\ delete_edge s2 u v = Some t).
Proof.
  unfold delete_edge, save_edge.
  destruct (bindable u) eqn:Bu, (bindable v) eqn:Bv; cbn; try discriminate.
  intros [= <-]. split; [|split; [|split]].
  - intros [a b]. apply In_delete.
  - f_equal. apply filter_ext. intros r. now rewrite matches_swap.
  - f_equal. apply EdgeCommands.filter_all. intros r Hr.
    now apply filter_In in Hr.
  - intros E. exists (t ++ [(u, v)]), (t ++ [(v, u)]).
    assert (M1 : matches v u (u, v) = true) by (apply matches_true; auto).
    assert (M2 : matches u v (v, u) = true) by (apply matches_true; auto).
    repeat split; f_equal; rewrite filter_app; cbn [filter];
      rewrite ?M1, ?M2; cbn; rewrite app_nil_r; [|exact E].
    rewrite <- E at 2. apply filter_ext. intros r. now rewrite matches_swap.
Qed.

Lemma delete_edge_both_orientations_witness :
  delete_edge [(1, 2); (3, 4); (2, 1); (1, 2)] 2 1 = Some [(3, 4)]
  /\ forall r, In r [(3, 4)] <->
               In r [(1, 2); (3, 4); (2, 1); (1, 2)]
               /\ r <> (2, 1) /\ r <> (1, 2).
Proof.
  split; [reflexivity|].
  exact (proj1 (delete_edge_both_orientations
                  [(1, 2); (3, 4); (2, 1); (1, 2)] [(3, 4)] 2 1 eq_refl)).
Defined.

Lemma loaded_edges_are_rows rows p :
  In p (map normalize (Nx.edges (load_rows empty rows)))
  <-> In p (map normalize rows).
Proof.
  assert (Hw : wf (_adj (load_rows empty rows))).
  { apply wf_load_rows. exact wf_empty. }
  rewrite !in_map_iff. split.
  - intros [[u v] [<- H]]. apply (edges_has_edge _ u v Hw) in H.
    rewrite has_edge_load_rows in H. simpl in H.
    apply existsb_matches in H as [H|H].
    + now exists (u, v).
    + exists (v, u). split; [apply Listing.normalize_swap | exact H].
  - intros [[u v] [<- H]].
    assert (A : has_edge (load_rows empty rows) u v = true).
    { rewrite has_edge_load_rows. apply orb_true_iff. right.
      apply existsb_matches. now left. }
    apply (EdgeView.adjacent_is_edge _ Hw) in A as [A|A].
    + now exists (u, v).
    + exists (v, u). split; [apply Listing.normalize_swap | exact A].
Qed.

(** X17.  The number in the "Loaded n edges from DB" line of a start is
    the number of different unordered pairs among the rows of the table:
    a pair stored twice, or in both orientations, counts once, so the
    number is at most the number of rows. *)
Theorem startup_logs_distinct_rows (file : option table) :
  let rows := init_db file in
  let n := number_of_edges (G (fst (startup file))) in
  snd (startup file) = [LogLoaded n]
  /\ n <= Z.of_nat (length rows)
  /\ exists pairs,
       NoDup pairs
       /\ (forall p, In p pairs <-> In p (map normalize rows))
       /\ n = Z.of_nat (length pairs).
Proof.
  intros rows n.
  assert (Eg : G (fst (startup file)) = load_rows empty rows) by reflexivity.
  assert (Hw : wf (_adj (load_rows empty rows))).
  { apply wf_load_rows. exact wf_empty. }
  assert (En : n = Z.of_nat (length (map normalize
                                       (Nx.edges (load_rows empty rows))))).
  { unfold n. rewrite Eg, (number_of_edges_wf _ Hw), length_map. reflexivity. }
  pose proof (Listing.edges_simple _ Hw) as Hnd.
  split; [reflexivity|]. split.
  - rewrite En. apply inj_le.
    apply Nat.le_trans with (length (map normalize rows));
      [|now rewrite length_map].
    apply NoDup_incl_length; [exact Hnd|].
    intros p Hp. now apply loaded_edges_are_rows.
  - exists (map normalize (Nx.edges (load_rows empty rows))).
    split; [exact Hnd|]. split; [apply loaded_edges_are_rows | exact En].
Qed.

(** X18.  In a session started on any table, the degree list that
    [verify_lemma] shows has one entry per node, in the order of the node
    dict (the order in which the nodes were created, not the ascending
    order of the node display), and each entry is the degree of its node. *)
Theorem verify_degrees_in_dict_order
  (file : option table) (cs : list Command) :
  let st := run_from (fst (startup file)) cs in
  degrees (fst (verify_lemma st)) = map (degree (G st)) (nodes (G st))
  /\ length (degrees (fst (verify_lemma st))) = length (node_list (G st))
  /\ map fst (degree_view (G st)) = nodes (G st).
Proof.
  intros st.
  assert (Hw : wf (_adj (G st))) by apply wf_run_from, wf_startup.
  destruct Hw as (Hk & _).
  assert (E : degrees (fst (verify_lemma st)) = map snd (degree_view (G st))).
  { unfold verify_lemma. now destruct (_ =? _). }
  assert (D : map snd (degree_view (G st))
              = map (degree (G st)) (nodes (G st))).
  { unfold degree_view, nodes. rewrite !map_map. apply map_ext_in.
    intros [n l] Hin. cbn [fst snd]. unfold degree.
    now rewrite (In_adj_get _ _ _ Hk Hin). }
  rewrite E, D. split; [reflexivity|]. split.
  - rewrite length_map. symmetry.
    apply Permutation_length, NodesView.node_list_perm.
  - unfold degree_view, nodes. rewrite map_map. reflexivity.
Qed.

End Behaviour.

(** ** Listbox lines: what is written is what is read, for ids from 0 up *)

Module Lines.

Import Nx EdgeStore GraphApp Props.

Definition is_digit (a : Ascii.ascii) : bool :=
  let n := Ascii.nat_of_ascii a in ((48 <=? n) && (n <=? 57))%nat.

Fixpoint all_digits (s : String.string) : bool :=
  match s with
  | String.EmptyString => true
  | String.String a s' => is_digit a && all_digits s'
  end.

Lemma digit_facts a :
  is_digit a = true ->
  Ascii.eqb a dash = false /\ Ascii.eqb a plus_sign = false
  /\ is_space a = false.
Proof.
  destruct a as [[|] [|] [|] [|] [|] [|] [|] [|]];
    intros H; try discriminate H; repeat split; reflexivity.
Qed.

Lemma uint_digits d :
  all_digits (DecimalString.NilEmpty.string_of_uint d) = true.
Proof. induction d; simpl; auto. Qed.

(** [str] of an int from 0 up is a non-empty string of digits; of a
    negative int it starts with the minus sign. *)
Lemma str_nonneg z :
  0 <= z ->
  exists a s, str z = String.String a s
              /\ all_digits (String.String a s) = true.
Proof.
  intros H. unfold str. destruct z as [|p|p]; [| |lia].
  - eexists _, _. split; reflexivity.
  - cbn [Z.to_int DecimalString.NilZero.string_of_int].
    pose proof (DecimalPos.Unsigned.to_uint_nonnil p) as Hn.
    pose proof (uint_digits (Pos.to_uint p)) as Hd.
    unfold DecimalString.NilZero.string_of_uint.
    destruct (Pos.to_uint p) eqn:E; try contradiction;
      cbn [DecimalString.NilEmpty.string_of_uint] in *;
      eexists _, _; (split; [reflexivity | exact Hd]).
Qed.

Lemma str_negative z :
  z < 0 -> exists s, str z = String.String dash s.
Proof.
  intros H. unfold str. destruct z as [|p|p]; try lia.
  eexists. reflexivity.
Qed.

Lemma py_int_str z : 0 <= z -> py_int (str z) = Some z.
Proof.
  intros H. destruct (str_nonneg z H) as (a & s & E & D).
  unfold py_int. rewrite E.
  cbn [all_digits] in D. apply andb_true_iff in D as [Da _].
  destruct (digit_facts a Da) as (_ & Hp & _). rewrite Hp, <- E.
  unfold str. rewrite DecimalString.NilZero.isi.
  - cbn. now rewrite DecimalZ.of_to.
  - destruct z; cbn; try discriminate. intros [= E'].
    exact (DecimalPos.Unsigned.to_uint_nonnil _ E').
  - destruct z; cbn; try discriminate. lia.
Qed.

Lemma split_on_parts c s : exists p ps, split_on c s = p :: ps.
Proof.
  induction s as [|a s (p & ps & IH)]; simpl; [eauto|].
  destruct (Ascii.eqb a c); [eauto|]. rewrite IH. eauto.
Qed.

Lemma split_on_digits d s p ps :
  all_digits d = true -> split_on dash s = p :: ps ->
  split_on dash (String.append d s) = String.append d p :: ps.
Proof.
  intros Hd Hs. induction d as [|a d IH]; simpl; [exact Hs|].
  cbn [all_digits] in Hd. apply andb_true_iff in Hd as [Ha Hd].
  destruct (digit_facts a Ha) as (E & _). rewrite E, (IH Hd). reflexivity.
Qed.

Lemma split_on_only_digits d :
  all_digits d = true -> split_on dash d = [d].
Proof.
  induction d as [|a d IH]; simpl; intros Hd; [reflexivity|].
  apply andb_true_iff in Hd as [Ha Hd].
  destruct (digit_facts a Ha) as (E & _). rewrite E, (IH Hd). reflexivity.
Qed.

Lemma lstrip_digits d : all_digits d = true -> lstrip d = d.
Proof.
  destruct d as [|a d]; simpl; intros Hd; [reflexivity|].
  apply andb_true_iff in Hd as [Ha _].
  destruct (digit_facts a Ha) as (_ & _ & E). now rewrite E.
Qed.

Lemma rstrip_digits d : all_digits d = true -> rstrip d = d.
Proof.
  induction d as [|a d IH]; simpl; intros Hd; [reflexivity|].
  apply andb_true_iff in Hd as [Ha Hd].
  destruct (digit_facts a Ha) as (_ & _ & E). rewrite (IH Hd), E.
  now destruct d.
Qed.

Lemma rstrip_digits_blank d :
  all_digits d = true ->
  rstrip (String.append d (String.String blank String.EmptyString)) = d.
Proof.
  induction d as [|a d IH]; simpl; intros Hd; [reflexivity|].
  apply andb_true_iff in Hd as [Ha Hd].
  destruct (digit_facts a Ha) as (_ & _ & E). rewrite (IH Hd), E.
  now destruct d.
Qed.

Lemma strip_left d :
  all_digits d = true ->
  strip (String.append d (String.String blank String.EmptyString)) = d.
Proof.
  intros Hd. destruct d as [|a d]; [reflexivity|]. unfold strip.
  assert (E : lstrip (String.append (String.String a d)
                        (String.String blank String.EmptyString))
              = String.append (String.String a d)
                  (String.String blank String.EmptyString)).
  { simpl. cbn [all_digits] in Hd. apply andb_true_iff in Hd as [Ha _].
    destruct (digit_facts a Ha) as (_ & _ & E). now rewrite E. }
  rewrite E. now apply rstrip_digits_blank.
Qed.

Lemma strip_right d :
  all_digits d = true -> strip (String.String blank d) = d.
Proof.
  intros Hd. unfold strip. cbn [lstrip].
  change (is_space blank) with true. cbn iota.
  rewrite (lstrip_digits d Hd). now apply rstrip_digits.
Qed.

(** A line written by [refresh_graph] is read back as the same pair when
    both ids are 0 or more; with a negative id the parse raises. *)
Lemma parse_render u v :
  parse_item (render u v)
  = if (0 <=? u) && (0 <=? v) then Some (u, v) else None.
Proof.
  unfold parse_item, render.
  destruct (Z.leb_spec 0 u) as [Hu|Hu].
  - destruct (str_nonneg u Hu) as (a & s & Eu & Du).
    pose proof (py_int_str u Hu) as Pu. rewrite Eu in *.
    set (du := String.String a s) in *.
    destruct (Z.leb_spec 0 v) as [Hv|Hv]; cbn [andb].
    + destruct (str_nonneg v Hv) as (b & t & Ev & Dv).
      pose proof (py_int_str v Hv) as Pv. rewrite Ev in *.
      set (dv := String.String b t) in *.
      rewrite (split_on_digits du _ (String.String blank String.EmptyString)
                 [String.String blank dv] Du).
      * rewrite (strip_left du Du), (strip_right dv Dv), Pu, Pv. reflexivity.
      * cbn [split_on]. change (Ascii.eqb blank dash) with false.
        change (Ascii.eqb dash dash) with true. cbn iota.
        change (Ascii.eqb blank dash) with false. cbn iota.
        now rewrite (split_on_only_digits dv Dv).
    + destruct (str_negative v Hv) as [t Ev]. rewrite Ev.
      destruct (split_on_parts dash t) as (p & ps & Et).
      rewrite (split_on_digits du _ (String.String blank String.EmptyString)
                 (String.String blank String.EmptyString :: p :: ps) Du).
      * rewrite (strip_left du Du), Pu. reflexivity.
      * cbn [split_on]. change (Ascii.eqb blank dash) with false.
        change (Ascii.eqb dash dash) with true. cbn iota.
        now rewrite Et.
  - destruct (str_negative u Hu) as [s Eu]. rewrite Eu. cbn [andb].
    cbn [String.append split_on]. change (Ascii.eqb dash dash) with true.
    cbn iota.
    destruct (split_on_parts dash
                (String.append s
                   (String.String blank
                      (String.String dash (String.String blank (str v))))))
      as (p & ps & E).
    rewrite E. reflexivity.
Qed.

End Lines.

(** ** The window: which lines the listbox holds *)

Module Listbox.

Import Nx EdgeStore GraphApp Props NxFacts NxWf Session.



Lemma session_reachable es : exists cs, state (session es) = run cs.
Proof.
  assert (H : forall es w cs0, state w = run cs0 ->
                exists cs, state (play_from w es) = run cs).
  { clear es. induction es as [|e es IH]; intros w cs0 E; [now exists cs0|].
    apply (IH (fst (handle w e)) (cs0 ++ [command_of (listbox w) e])).
    rewrite StoreSync.run_snoc, <- E. reflexivity. }
  apply (H es first_window []). reflexivity.
Qed.

Lemma Inv_session es : Inv (state (session es)).
Proof. destruct (session_reachable es) as [cs ->]. apply Inv_run. Qed.









(** X14.  In a session the random [remove_edge] reports "No edges to
    remove." exactly when the edge view is empty.  Otherwise, for the edge
    [(u, v)] it draws, it runs lines 353-358 on that pair, [G.remove_edge]
    does not raise, and the edge is gone afterwards in both directions.
    Selecting the line of that edge and pressing "Remove Selected Edge"
    does the same when both ids are 0 or more; when an id is negative the
    line does not parse, the button only answers "Failed to parse
    selected edge." and the edge stays. *)
Theorem random_remove_edge_removes_drawn (es : list Event) (i : nat) :
  let w := session es in
  let st := state w in
  (Nx.edges (G st) = [] <-> remove_edge st i = (st, [ErrNoEdges]))
  /\ (forall u v, nth_error (Nx.edges (G st)) i = Some (u, v) ->
        remove_edge st i = remove_pair st u v
        /\ has_edge (G (fst (remove_edge st i))) u v = false
        /\ has_edge (G (fst (remove_edge st i))) v u = false
        /\ (exists g', Nx.remove_edge (G st) u v = Removed g')
        /\ (forall j, nth_error (listbox w) j = Some (render u v) ->
              (0 <= u -> 0 <= v ->
               handle w (PressRemoveSelected (Some j))
               = handle w (CallRemoveEdge i))
              /\ (u < 0 \/ v < 0 ->
                  handle w (PressRemoveSelected (Some j))
                  = (w, [ErrParseEdge])
                  /\ has_edge (G st) u v = true))).
Proof.
  intros w st. pose proof (Inv_session es) as I. fold w in I. fold st in I.
  pose proof (inv_wf _ I) as Hw.
  pose proof (number_of_edges_wf _ Hw) as N.
  split.
  - split.
    + intros E. unfold remove_edge. rewrite N, E. reflexivity.
    + unfold remove_edge. rewrite N.
      destruct (Nx.edges (G st)) as [|e l] eqn:E; [reflexivity|].
      cbn [length]. destruct (Z.eqb_spec (Z.of_nat (S (length l))) 0); [lia|].
      destruct (nth_error (e :: l) i) as [[u v]|]; [|discriminate].
      destruct (Nx.remove_edge (G st) u v); [|discriminate].
      destruct (delete_edge (db st) u v); discriminate.
  - intros u v Hn.
    assert (He : has_edge (G st) u v = true).
    { apply edges_has_edge; [exact Hw | now apply nth_error_In in Hn]. }
    destruct (remove_edge_wf _ u v Hw He) as [g' (Er & Hw' & _ & Hh)].
    assert (Eq : remove_edge st i = remove_pair st u v)
      by now apply remove_edge_is_remove_pair.
    assert (Eg : G (fst (remove_pair st u v)) = g').
    { unfold remove_pair. rewrite He, Er.
      now destruct (delete_edge (db st) u v). }
    split; [exact Eq|]. rewrite Eq, Eg, !Hh, !Z.eqb_refl.
    split; [|split; [|split; [now exists g'|]]].
    + destruct (has_edge (G st) u v), (u =? v), (v =? u); reflexivity.
    + destruct (has_edge (G st) v u), (u =? v), (v =? u); reflexivity.
    + intros j Hj. split.
      * intros Hu Hv. unfold handle. cbn [command_of selection_of].
        rewrite Hj, Lines.parse_render.
        destruct (Z.leb_spec 0 u), (Z.leb_spec 0 v); try lia. cbn [andb].
        cbn [exec remove_selected_edge refreshes]. fold st. now rewrite Eq.
      * intros Hneg. split; [|exact He].
        unfold handle. cbn [command_of selection_of].
        rewrite Hj, Lines.parse_render.
        assert (F : (0 <=? u) && (0 <=? v) = false).
        { destruct (Z.leb_spec 0 u), (Z.leb_spec 0 v); cbn; auto; lia. }
        rewrite F. cbn. now destruct w.
Qed.

End Listbox.
